(** * go-protoc-gen-prost: the host bridge around the protoc-gen-prost module

    A shallow embedding of [prost.go]: the constructor
    [NewProtocGenProstWithModule], the call protocol [Execute], and the
    memory helpers [allocBytes] and [freePtr].

    The WebAssembly module is an opaque collaborator.  Host code is
    written as a program over the operations it performs on the runtime
    (mutex, export calls, linear-memory reads and writes); a module is a
    record giving each export a behaviour on the instance state; running
    a program against a module yields its result, the final state and the
    chronological trace of operations. *)

From Stdlib Require Import ZArith List String Bool Lia Arith.
From Stdlib Require Import Strings.Byte.
Import ListNotations.
Local Open Scope string_scope.
Local Open Scope Z_scope.

Set Implicit Arguments.

(** ** Export names (the constants of the package) *)

Definition ExportProstExecute : string := "prost_execute".
Definition ExportProstGetOutputPtr : string := "prost_get_output_ptr".
Definition ExportProstGetOutputLen : string := "prost_get_output_len".
Definition ExportProstClearOutput : string := "prost_clear_output".
Definition ExportProstMalloc : string := "prost_malloc".
Definition ExportProstFree : string := "prost_free".

(** The reactor start-up entry point looked up by the constructor. *)
Definition ExportInitialize : string := "_initialize".

(** The exports the constructor validates, in the order it checks them. *)
Definition required_exports : list string :=
  [ExportProstMalloc; ExportProstFree; ExportProstExecute;
   ExportProstGetOutputPtr; ExportProstGetOutputLen; ExportProstClearOutput].

(** ** Values crossing the boundary *)

(** A Go [error], identified with its message. *)
Definition error := string.

(** [uint32(x)]: conversion of a 64-bit value to 32 bits. *)
Definition uint32 (z : Z) : Z := z mod 2 ^ 32.

(** The pair [([]uint64, error)] returned by [api.Function.Call]. *)
Inductive CallRes : Type :=
| Results (results : list Z)
| Trap (err : error).

(** A resolved [api.Function]: the export it is bound to. *)
Definition Function := string.

(** The slice returned by [Memory().Read]: a view of [cnt] bytes of the
    instance's memory starting at [off], not a copy. *)
Record Slice : Type := { off : Z; cnt : Z }.

(** Outcome of an access through [p.mod.Memory()]: the module may define
    no memory at all, or the range may lie outside it. *)
Inductive Access (A : Type) : Type :=
| NoMemory
| OutOfRange
| Granted (a : A).
Arguments NoMemory {A}.
Arguments OutOfRange {A}.

(** ** Operations of the host on the runtime *)

Inductive Op : Type -> Type :=
| MuLock : Op unit
| MuUnlock : Op unit
| FnCall (f : Function) (args : list Z) : Op CallRes
| MemRead (offset byteCount : Z) : Op (Access Slice)
| MemWrite (offset : Z) (val : list byte) : Op (Access unit)
| CopyFrom (s : Slice) : Op (list byte)
| WasiInstantiate : Op (option error)
| InstantiateModule : Op (option error)
| ExportedFunction (name : string) : Op (option Function)
| ModClose : Op unit.

(** One entry of a trace: an operation together with its answer. *)
Inductive Event : Type :=
| ELock
| EUnlock
| ECall (f : Function) (args : list Z) (r : CallRes)
| ERead (offset byteCount : Z) (r : Access Slice)
| EWrite (offset : Z) (val : list byte) (r : Access unit)
| ECopy (s : Slice) (bytes : list byte)
| EWasi (r : option error)
| EInstantiate (r : option error)
| ELookup (name : string) (r : option Function)
| EClose.

Definition event_of {X} (o : Op X) : X -> Event :=
  match o in Op X return X -> Event with
  | MuLock => fun _ => ELock
  | MuUnlock => fun _ => EUnlock
  | FnCall f args => ECall f args
  | MemRead offset byteCount => ERead offset byteCount
  | MemWrite offset val => EWrite offset val
  | CopyFrom s => ECopy s
  | WasiInstantiate => EWasi
  | InstantiateModule => EInstantiate
  | ExportedFunction name => ELookup name
  | ModClose => fun _ => EClose
  end.

Inductive OpKind : Type := KLock | KUnlock | KInstance.

Definition kind {X} (o : Op X) : OpKind :=
  match o with
  | MuLock => KLock
  | MuUnlock => KUnlock
  | _ => KInstance
  end.

(** ** Host programs *)

(** A host function: it returns, panics, or performs an operation and
    continues with the answer. *)
Inductive Prog (A : Type) : Type :=
| Ret (a : A)
| Panic (msg : string)
| Vis (X : Type) (o : Op X) (k : X -> Prog A).
Arguments Panic {A} msg.
Arguments Vis {A X} o k.

Fixpoint bind {A B} (p : Prog A) (f : A -> Prog B) : Prog B :=
  match p with
  | Ret a => f a
  | Panic msg => Panic msg
  | Vis o k => Vis o (fun x => bind (k x) f)
  end.

Definition perform {X} (o : Op X) : Prog X := Vis o (fun x => Ret x).

Notation "x <- c ;; k" := (bind c (fun x => k))
  (at level 61, c at next level, right associativity).
Notation "c ;;; k" := (bind c (fun _ => k))
  (at level 61, right associativity).

(** [defer d] around [body]: [d] runs when [body] returns and also when
    it panics, after which the result or the panic is passed on. *)
Fixpoint defer {A} (d : Prog unit) (body : Prog A) : Prog A :=
  match body with
  | Ret a => d ;;; Ret a
  | Panic msg => d ;;; Panic msg
  | Vis o k => Vis o (fun x => defer d (k x))
  end.

Definition nil_dereference : string :=
  "invalid memory address or nil pointer dereference".
Definition index_out_of_range : string :=
  "index out of range [0] with length 0".

(** [f.Call(ctx, args...)] on a field that may be nil. *)
Definition call (f : option Function) (args : list Z) : Prog CallRes :=
  match f with
  | Some fn => perform (FnCall fn args)
  | None => Panic nil_dereference
  end.

(** [results[0]]. *)
Definition first_result (results : list Z) : Prog Z :=
  match results with
  | r :: _ => Ret r
  | [] => Panic index_out_of_range
  end.

(** [p.mod.Memory().Write(ptr, data)]: the boolean result, or a panic
    when [Memory()] is nil. *)
Definition memory_write (ptr : Z) (data : list byte) : Prog bool :=
  a <- perform (MemWrite ptr data) ;;
  match a with
  | NoMemory => Panic nil_dereference
  | OutOfRange => Ret false
  | Granted _ => Ret true
  end.

(** [p.mod.Memory().Read(ptr, n)]: the view and the [ok] flag. *)
Definition memory_read (ptr n : Z) : Prog (option Slice) :=
  a <- perform (MemRead ptr n) ;;
  match a with
  | NoMemory => Panic nil_dereference
  | OutOfRange => Ret None
  | Granted s => Ret (Some s)
  end.

(** ** The bridge *)

(** The function fields of the [ProtocGenProst] struct.  The runtime, the
    module handle and the mutex live in the world the programs run in. *)
Record ProtocGenProst : Type := {
  malloc : option Function;
  free : option Function;
  prostExecute : option Function;
  prostGetOutputPtr : option Function;
  prostGetOutputLen : option Function;
  prostClearOutput : option Function }.

Definition len (data : list byte) : Z := Z.of_nat (List.length data).

Definition allocBytes (p : ProtocGenProst) (data : list byte)
  : Prog (Z * option error) :=
  if len data =? 0 then Ret (0, None) else
  r <- call (malloc p) [len data] ;;
  match r with
  | Trap err => Ret (0, Some err)
  | Results results =>
      r0 <- first_result results ;;
      let ptr := uint32 r0 in
      if ptr =? 0 then Ret (0, Some "malloc returned null") else
      ok <- memory_write ptr data ;;
      if negb ok then
        call (free p) [ptr; len data] ;;;
        Ret (0, Some "failed to write to memory")
      else Ret (ptr, None)
  end.

Definition freePtr (p : ProtocGenProst) (ptr size : Z) : Prog unit :=
  if negb (ptr =? 0) then call (free p) [ptr; size] ;;; Ret tt
  else Ret tt.

Definition Execute (p : ProtocGenProst) (input : list byte)
  : Prog (list byte * option error) :=
  perform MuLock ;;;
  defer (perform MuUnlock) (
    a <- allocBytes p input ;;
    let '(inputPtr, err) := a in
    match err with
    | Some e => Ret ([], Some ("failed to allocate input: " ++ e))
    | None =>
      defer (freePtr p inputPtr (uint32 (len input))) (
        r <- call (prostExecute p) [inputPtr; len input] ;;
        match r with
        | Trap e => Ret ([], Some ("prost_execute failed: " ++ e))
        | Results results =>
          r0 <- first_result results ;;
          let outputLen := uint32 r0 in
          r <- call (prostGetOutputPtr p) [] ;;
          match r with
          | Trap e => Ret ([], Some ("prost_get_output_ptr failed: " ++ e))
          | Results results =>
            r0 <- first_result results ;;
            let outputPtr := uint32 r0 in
            o <- memory_read outputPtr outputLen ;;
            match o with
            | None => Ret ([], Some "failed to read output from memory")
            | Some output =>
              result <- perform (CopyFrom output) ;;
              r <- call (prostClearOutput p) [] ;;
              match r with
              | Trap e => Ret ([], Some ("prost_clear_output failed: " ++ e))
              | Results _ => Ret (result, None)
              end
            end
          end
        end)
    end).

Definition missing_export (name : string) : error :=
  "missing export: " ++ name.

Definition NewProtocGenProstWithModule
  : Prog (option ProtocGenProst * option error) :=
  w <- perform WasiInstantiate ;;
  match w with
  | Some err => Ret (None, Some ("failed to instantiate WASI: " ++ err))
  | None =>
  i <- perform InstantiateModule ;;
  match i with
  | Some err => Ret (None, Some ("failed to instantiate module: " ++ err))
  | None =>
  initFn <- perform (ExportedFunction ExportInitialize) ;;
  r <- match initFn with
       | Some fn =>
           r <- perform (FnCall fn []) ;;
           match r with
           | Trap err => perform ModClose ;;; Ret (Some err)
           | Results _ => Ret None
           end
       | None => Ret None
       end ;;
  match r with
  | Some err => Ret (None, Some ("_initialize failed: " ++ err))
  | None =>
  f1 <- perform (ExportedFunction ExportProstMalloc) ;;
  f2 <- perform (ExportedFunction ExportProstFree) ;;
  f3 <- perform (ExportedFunction ExportProstExecute) ;;
  f4 <- perform (ExportedFunction ExportProstGetOutputPtr) ;;
  f5 <- perform (ExportedFunction ExportProstGetOutputLen) ;;
  f6 <- perform (ExportedFunction ExportProstClearOutput) ;;
  let p := {| malloc := f1; free := f2; prostExecute := f3;
              prostGetOutputPtr := f4; prostGetOutputLen := f5;
              prostClearOutput := f6 |} in
  match malloc p with
  | None => perform ModClose ;;; Ret (None, Some (missing_export ExportProstMalloc))
  | Some _ =>
  match free p with
  | None => perform ModClose ;;; Ret (None, Some (missing_export ExportProstFree))
  | Some _ =>
  match prostExecute p with
  | None => perform ModClose ;;; Ret (None, Some (missing_export ExportProstExecute))
  | Some _ =>
  match prostGetOutputPtr p with
  | None => perform ModClose ;;; Ret (None, Some (missing_export ExportProstGetOutputPtr))
  | Some _ =>
  match prostGetOutputLen p with
  | None => perform ModClose ;;; Ret (None, Some (missing_export ExportProstGetOutputLen))
  | Some _ =>
  match prostClearOutput p with
  | None => perform ModClose ;;; Ret (None, Some (missing_export ExportProstClearOutput))
  | Some _ => Ret (Some p, None)
  end end end end end end
  end end end.

(** ** The guest module and the runtime *)

(** State of an instance: its linear memory (absent when the module
    defines none), the module's private state, and whether it was closed. *)
Record Inst (G : Type) : Type :=
  { mem : option (list byte); glob : G; closed : bool }.

(** A compiled module inside a runtime: the outcome of binding WASI and of
    instantiation, its export table, and what each export does to the
    instance when called. *)
Record Guest : Type := {
  G : Type;
  wasi : option error;
  instantiation : option error;
  exported : string -> bool;
  invoke : string -> list Z -> Inst G -> CallRes * Inst G }.

(** The mutex of the [ProtocGenProst] value and the instance it wraps. *)
Record World (g : Guest) : Type := { mu : bool; inst : Inst (G g) }.

(** [hasSize] of the runtime's memory: the range lies inside the buffer. *)
Definition hasSize (buf : list byte) (offset byteCount : Z) : bool :=
  offset + byteCount <=? Z.of_nat (List.length buf).

Definition bytes_at (buf : list byte) (offset byteCount : Z) : list byte :=
  firstn (Z.to_nat byteCount) (skipn (Z.to_nat offset) buf).

Definition write_at (buf : list byte) (offset : Z) (val : list byte)
  : list byte :=
  (firstn (Z.to_nat offset) buf ++ val
     ++ skipn (Z.to_nat offset + List.length val) buf)%list.

Definition view (m : option (list byte)) (s : Slice) : list byte :=
  match m with
  | Some buf => bytes_at buf (off s) (cnt s)
  | None => []
  end.

Inductive Step (X W : Type) : Type :=
| Next (x : X) (w : W)
| Wait
| Crash (msg : string).
Arguments Wait {X W}.
Arguments Crash {X W} msg.

(** How a run of a host function ends: it returns, it panics (after its
    deferred calls), it waits for the mutex for ever, or the process dies
    on a fatal runtime error. *)
Inductive Outcome (A : Type) : Type :=
| Returned (a : A)
| Panicked (msg : string)
| Blocked
| Crashed (msg : string).
Arguments Panicked {A} msg.
Arguments Blocked {A}.
Arguments Crashed {A} msg.

Section Runtime.

Variable g : Guest.

Definition with_inst (w : World g) (i : Inst (G g)) : World g :=
  {| mu := mu w; inst := i |}.

Definition with_mem (i : Inst (G g)) (buf : list byte) : Inst (G g) :=
  {| mem := Some buf; glob := glob i; closed := closed i |}.

(** The instance after [mod.Close]. *)
Definition shut (i : Inst (G g)) : Inst (G g) :=
  {| mem := mem i; glob := glob i; closed := true |}.

(** What the runtime answers to one operation, and the state it leaves.
    [MuLock] on a held mutex waits; [MuUnlock] on a free one is the
    fatal error of [sync.Mutex]. *)
Definition handle {X} (o : Op X) (w : World g) : Step X (World g) :=
  match o in Op X return Step X (World g) with
  | MuLock =>
      if mu w then Wait else Next tt {| mu := true; inst := inst w |}
  | MuUnlock =>
      if mu w then Next tt {| mu := false; inst := inst w |}
      else Crash "sync: unlock of unlocked mutex"
  | FnCall f args =>
      let '(r, i) := invoke g f args (inst w) in Next r (with_inst w i)
  | MemRead offset byteCount =>
      match mem (inst w) with
      | None => Next NoMemory w
      | Some buf =>
          if hasSize buf offset byteCount
          then Next (Granted {| off := offset; cnt := byteCount |}) w
          else Next OutOfRange w
      end
  | MemWrite offset val =>
      match mem (inst w) with
      | None => Next NoMemory w
      | Some buf =>
          if hasSize buf offset (len val)
          then Next (Granted tt)
                 (with_inst w (with_mem (inst w) (write_at buf offset val)))
          else Next OutOfRange w
      end
  | CopyFrom s => Next (view (mem (inst w)) s) w
  | WasiInstantiate => Next (wasi g) w
  | InstantiateModule => Next (instantiation g) w
  | ExportedFunction name =>
      Next (if exported g name then Some name else None) w
  | ModClose => Next tt (with_inst w (shut (inst w)))
  end.

(** Runs a program to its end: the outcome, the final world and the
    operations performed, oldest first. *)
Fixpoint run {A} (p : Prog A) (w : World g)
  : Outcome A * World g * list Event :=
  match p with
  | Ret a => (Returned a, w, [])
  | Panic msg => (Panicked msg, w, [])
  | Vis o k =>
      match handle o w with
      | Next x w' =>
          let '(r, w'', tr) := run (k x) w' in (r, w'', event_of o x :: tr)
      | Wait => (Blocked, w, [])
      | Crash msg => (Crashed msg, w, [])
      end
  end.

End Runtime.

(** ** A small guest for concrete runs

    It answers [prost_malloc], [prost_free], [prost_get_output_ptr],
    [prost_get_output_len] and [_initialize] with fixed values;
    [prost_execute] reverses the input bytes into the region at offset 32
    and returns their number; [prost_clear_output] zeroes its memory. *)

Record Quirks : Type := {
  q_absent : list string;
  q_reactor : bool;
  q_init : CallRes;
  q_malloc : CallRes;
  q_free : CallRes;
  q_execute : option CallRes;
  q_ptr : CallRes;
  q_len : CallRes;
  q_clear : CallRes }.

Definition mentions (names : list string) (name : string) : bool :=
  existsb (String.eqb name) names.

Definition toy_execute (args : list Z) (i : Inst unit) : CallRes * Inst unit :=
  match args, mem i with
  | [ptr; n], Some buf =>
      if hasSize buf ptr n && hasSize buf 32 n
      then (Results [n],
            {| mem := Some (write_at buf 32 (rev (bytes_at buf ptr n)));
               glob := glob i; closed := closed i |})
      else (Trap "out of bounds memory access", i)
  | _, _ => (Trap "invalid call", i)
  end.

Definition toy_invoke (q : Quirks) (f : string) (args : list Z) (i : Inst unit)
  : CallRes * Inst unit :=
  if String.eqb f ExportInitialize then (q_init q, i)
  else if String.eqb f ExportProstMalloc then (q_malloc q, i)
  else if String.eqb f ExportProstFree then (q_free q, i)
  else if String.eqb f ExportProstExecute then
    match q_execute q with
    | Some r => (r, i)
    | None => toy_execute args i
    end
  else if String.eqb f ExportProstGetOutputPtr then (q_ptr q, i)
  else if String.eqb f ExportProstGetOutputLen then (q_len q, i)
  else if String.eqb f ExportProstClearOutput then
    (q_clear q,
     {| mem := option_map (map (fun _ => x00)) (mem i);
        glob := glob i; closed := closed i |})
  else (Trap "unknown function", i).

Definition toy (q : Quirks) : Guest :=
  {| G := unit;
     wasi := None;
     instantiation := None;
     exported := fun name =>
       negb (mentions (q_absent q) name)
       && (mentions required_exports name
           || (q_reactor q && String.eqb name ExportInitialize));
     invoke := toy_invoke q |}.

Definition plain : Quirks :=
  {| q_absent := []; q_reactor := true; q_init := Results [];
     q_malloc := Results [8]; q_free := Results [];
     q_execute := None; q_ptr := Results [32]; q_len := Results [0];
     q_clear := Results [] |}.

Definition fresh (q : Quirks) : World (toy q) :=
  Build_World (toy q) false
    {| mem := Some (repeat x00 64); glob := tt; closed := false |}.

(** The handle the constructor builds when every export is present: the
    only one it ever returns (lemma [New_returns_bridge]), so the one
    every [Execute] call runs on. *)
Definition bridge : ProtocGenProst :=
  {| malloc := Some ExportProstMalloc;
     free := Some ExportProstFree;
     prostExecute := Some ExportProstExecute;
     prostGetOutputPtr := Some ExportProstGetOutputPtr;
     prostGetOutputLen := Some ExportProstGetOutputLen;
     prostClearOutput := Some ExportProstClearOutput |}.

Definition abc : list byte := [x61; x62; x63].
Definition cba : list byte := [x63; x62; x61].

(** Variants of the guest: one answer changed in each. *)
Definition null_malloc : Quirks :=
  {| q_absent := []; q_reactor := true; q_init := Results [];
     q_malloc := Results [0]; q_free := Results [];
     q_execute := None; q_ptr := Results [32]; q_len := Results [0];
     q_clear := Results [] |}.

Definition stray_malloc : Quirks :=
  {| q_absent := []; q_reactor := true; q_init := Results [];
     q_malloc := Results [62]; q_free := Results [];
     q_execute := None; q_ptr := Results [32]; q_len := Results [0];
     q_clear := Results [] |}.

Definition stray_output : Quirks :=
  {| q_absent := []; q_reactor := true; q_init := Results [];
     q_malloc := Results [8]; q_free := Results [];
     q_execute := None; q_ptr := Results [100]; q_len := Results [0];
     q_clear := Results [] |}.

Definition failing_clear : Quirks :=
  {| q_absent := []; q_reactor := true; q_init := Results [];
     q_malloc := Results [8]; q_free := Results [];
     q_execute := None; q_ptr := Results [32]; q_len := Results [0];
     q_clear := Trap "boom" |}.

Definition failing_free : Quirks :=
  {| q_absent := []; q_reactor := true; q_init := Results [];
     q_malloc := Results [8]; q_free := Trap "boom";
     q_execute := None; q_ptr := Results [32]; q_len := Results [0];
     q_clear := Results [] |}.

Definition failing_start : Quirks :=
  {| q_absent := []; q_reactor := true; q_init := Trap "boom";
     q_malloc := Results [8]; q_free := Results [];
     q_execute := None; q_ptr := Results [32]; q_len := Results [0];
     q_clear := Results [] |}.

Definition silent : Quirks :=
  {| q_absent := []; q_reactor := true; q_init := Results [];
     q_malloc := Results [8]; q_free := Results [];
     q_execute := Some (Results [0]); q_ptr := Results [32];
     q_len := Results [0]; q_clear := Results [] |}.

Definition no_length_accessor : Quirks :=
  {| q_absent := [ExportProstGetOutputLen]; q_reactor := true;
     q_init := Results [];
     q_malloc := Results [8]; q_free := Results [];
     q_execute := None; q_ptr := Results [32]; q_len := Results [0];
     q_clear := Results [] |}.

(** ** Reading traces *)

Fixpoint same_args (a b : list Z) : bool :=
  match a, b with
  | [], [] => true
  | x :: a', y :: b' => (x =? y) && same_args a' b'
  | _, _ => false
  end.

Definition is_call (e : Event) : bool :=
  match e with
  | ECall _ _ _ => true
  | _ => false
  end.

Definition is_call_to (f : string) (e : Event) : bool :=
  match e with
  | ECall f' _ _ => String.eqb f f'
  | _ => false
  end.

Definition is_call_with (f : string) (args : list Z) (e : Event) : bool :=
  match e with
  | ECall f' args' _ => String.eqb f f' && same_args args args'
  | _ => false
  end.

(** The export calls of a trace, in order. *)
Definition calls (tr : list Event) : list Event := filter is_call tr.

(** How many times export [f] was called. *)
Definition times_called (f : string) (tr : list Event) : nat :=
  List.length (filter (is_call_to f) tr).

(** How many times export [f] was called with exactly [args]. *)
Definition times_called_with (f : string) (args : list Z) (tr : list Event)
  : nat :=
  List.length (filter (is_call_with f args) tr).

Definition is_mutex_event (e : Event) : bool :=
  match e with
  | ELock | EUnlock => true
  | _ => false
  end.

(** ** A client: one instance, then a sequence of calls

    The shape of the package's tests: construct, then [Execute] each
    input in turn on the instance obtained. *)

Fixpoint execute_all (p : ProtocGenProst) (inputs : list (list byte))
  : Prog (list (list byte * option error)) :=
  match inputs with
  | [] => Ret []
  | input :: rest =>
      r <- Execute p input ;;
      rs <- execute_all p rest ;;
      Ret (r :: rs)
  end.

Definition session (inputs : list (list byte))
  : Prog (option (list (list byte * option error)) * option error) :=
  c <- NewProtocGenProstWithModule ;;
  match c with
  | (Some p, _) => rs <- execute_all p inputs ;; Ret (Some rs, None)
  | (None, err) => Ret (None, err)
  end.

(** ** Concurrent callers

    Goroutines that share one [ProtocGenProst] value: each runs its own
    program, one operation at a time, against the same world.  A thread
    whose next operation is [MuLock] on a held mutex cannot move. *)

Fixpoint set_nth {T} (i : nat) (x : T) (l : list T) : list T :=
  match l, i with
  | [], _ => []
  | _ :: l', O => x :: l'
  | y :: l', S i' => y :: set_nth i' x l'
  end.

Inductive pstep (g : Guest) (A : Type)
  : World g * list (Prog A) -> nat * Event -> World g * list (Prog A) -> Prop :=
| pstep_thread : forall w ths i X (o : Op X) k x w',
    nth_error ths i = Some (Vis o k) ->
    handle o w = Next x w' ->
    pstep (w, ths) (i, event_of o x) (w', set_nth i (k x) ths).

Inductive pexec (g : Guest) (A : Type)
  : World g * list (Prog A) -> list (nat * Event)
    -> World g * list (Prog A) -> Prop :=
| pexec_done : forall c, pexec c [] c
| pexec_step : forall c l c' tr c'',
    pstep c l c' -> pexec c' tr c'' -> pexec c (l :: tr) c''.

(** One scheduling decision: thread [i] moves if it can. *)
Definition sched_step (g : Guest) (A : Type) (i : nat)
  (c : World g * list (Prog A))
  : option ((nat * Event) * (World g * list (Prog A))) :=
  match nth_error (snd c) i with
  | Some (Vis o k) =>
      match handle o (fst c) with
      | Next x w' => Some ((i, event_of o x), (w', set_nth i (k x) (snd c)))
      | _ => None
      end
  | _ => None
  end.

(** Follows a schedule, skipping the decisions that cannot move. *)
Fixpoint sched (g : Guest) (A : Type) (picks : list nat)
  (c : World g * list (Prog A))
  : list (nat * Event) * (World g * list (Prog A)) :=
  match picks with
  | [] => ([], c)
  | i :: rest =>
      match sched_step i c with
      | Some (l, c') => let '(tr, c'') := sched rest c' in (l :: tr, c'')
      | None => sched rest c
      end
  end.

(** A trace of tagged operations respects the lock when every operation
    on the instance is made by the thread that last took the mutex and
    has not yet released it. *)
Fixpoint exclusive (holder : option nat) (tr : list (nat * Event)) : bool :=
  match tr with
  | [] => true
  | (i, e) :: tr' =>
      match holder, e with
      | None, ELock => exclusive (Some i) tr'
      | None, _ => false
      | Some h, EUnlock => Nat.eqb i h && exclusive None tr'
      | Some h, ELock => false
      | Some h, _ => Nat.eqb i h && exclusive (Some h) tr'
      end
  end.

(** The thread is inside the protocol: it holds the mutex, touches only
    the instance, and on every path releases the mutex as its last act. *)
Definition finished {A} (p : Prog A) : Prop :=
  match p with
  | Vis _ _ => False
  | _ => True
  end.

Fixpoint inside {A} (p : Prog A) : Prop :=
  match p with
  | Vis o k =>
      match kind o with
      | KLock => False
      | KUnlock => forall x, finished (k x)
      | KInstance => forall x, inside (k x)
      end
  | _ => False
  end.

(** The thread is outside: it has finished, or its next act is to take
    the mutex and go inside. *)
Definition outside {A} (p : Prog A) : Prop :=
  match p with
  | Vis o k =>
      match kind o with
      | KLock => forall x, inside (k x)
      | _ => False
      end
  | _ => True
  end.

(** A program that never touches the mutex. *)
Fixpoint lock_free {A} (p : Prog A) : Prop :=
  match p with
  | Vis o k =>
      match kind o with
      | KInstance => forall x, lock_free (k x)
      | _ => False
      end
  | _ => True
  end.

(** ** Vocabulary of the statements *)

(** The world once [Execute] has taken the mutex. *)
Definition locked (g : Guest) (w : World g) : World g :=
  {| mu := true; inst := inst w |}.

Definition unlocked (g : Guest) (i : Inst (G g)) : World g :=
  {| mu := false; inst := i |}.

(** The first required export the module lacks, if any. *)
Definition first_absent (g : Guest) : option string :=
  find (fun name => negb (exported g name)) required_exports.

(** The memory of the instance, when present, fits the 32-bit address
    space: linear memory never exceeds 4 GiB. *)
Definition addressable (G : Type) (i : Inst G) : Prop :=
  forall buf, mem i = Some buf -> len buf <= 2 ^ 32.

(** The same module with export [f] given another behaviour. *)
Definition override (g : Guest) (f : string)
  (body : list Z -> Inst (G g) -> CallRes * Inst (G g)) : Guest :=
  {| G := G g;
     wasi := wasi g;
     instantiation := instantiation g;
     exported := exported g;
     invoke := fun name => if String.eqb name f then body else invoke g name |}.

Definition recast (g : Guest) f body (w : World g) : World (override g f body) :=
  Build_World (override g f body) (mu w) (inst w).

(** The program never calls export [f], whatever the runtime answers. *)
Fixpoint avoids {A} (f : string) (p : Prog A) : Prop :=
  match p with
  | Vis o k =>
      match o with
      | FnCall f' _ => String.eqb f' f = false
      | _ => True
      end /\ forall x, avoids f (k x)
  | _ => True
  end.

(** Continuation of a run: how the run of [p] goes on with [f]. *)
Definition and_then (g : Guest) (A B : Type)
  (r : Outcome A * World g * list Event) (f : A -> Prog B)
  : Outcome B * World g * list Event :=
  let '(o, w, tr) := r in
  match o with
  | Returned a => let '(o', w', tr') := run (f a) w in (o', w', (tr ++ tr')%list)
  | Panicked msg => (Panicked msg, w, tr)
  | Blocked => (Blocked, w, tr)
  | Crashed msg => (Crashed msg, w, tr)
  end.


(** What holds of concurrent callers between any two operations: with
    the mutex free every thread is outside; with the mutex held exactly
    the holder is inside. *)
Definition lock_invariant (g : Guest) (A : Type) (holder : option nat)
  (c : World g * list (Prog A)) : Prop :=
  match holder with
  | None =>
      mu (fst c) = false /\
      forall i p, nth_error (snd c) i = Some p -> outside p
  | Some h =>
      mu (fst c) = true /\
      forall i p, nth_error (snd c) i = Some p ->
                  if Nat.eqb i h then inside p else outside p
  end.

(** No operation of the list touches the mutex. *)
Definition mutex_free (tr : list Event) : bool :=
  forallb (fun e => negb (is_mutex_event e)) tr.

(** ** Closing the instance

    [Close] of the source.  Its argument stands for the field [p.mod]:
    [None] is a nil module, [Some answer] a module whose [Close] reports
    [answer]. *)
Definition Close (module : option (option error)) : Prog (option error) :=
  perform MuLock ;;;
  defer (perform MuUnlock)
    match module with
    | Some answer => perform ModClose ;;; Ret answer
    | None => Ret None
    end.

(** A goroutine that runs a host function and drops its result. *)
Definition detached {A} (p : Prog A) : Prog unit := p ;;; Ret tt.

(** ** Further vocabulary of traces and guests *)

Definition is_write (e : Event) : bool :=
  match e with
  | EWrite _ _ _ => true
  | _ => false
  end.

Definition is_memory_event (e : Event) : bool :=
  match e with
  | ERead _ _ _ | EWrite _ _ _ | ECopy _ _ => true
  | _ => false
  end.

Definition is_close (e : Event) : bool :=
  match e with
  | EClose => true
  | _ => false
  end.

(** How many times the instance was closed. *)
Definition times_closed (tr : list Event) : nat :=
  List.length (filter is_close tr).

(** A call of the allocator that handed out a non-zero pointer. *)
Definition hands_out_buffer (e : Event) : bool :=
  match e with
  | ECall f _ (Results (r0 :: _)) =>
      String.eqb ExportProstMalloc f && negb (uint32 r0 =? 0)
  | _ => false
  end.

(** How many input buffers the allocator handed out. *)
Definition buffers_handed_out (tr : list Event) : nat :=
  List.length (filter hands_out_buffer tr).

Definition nonempty (data : list byte) : bool := negb (len data =? 0).

(** The constructor has all it needs: WASI binds, the module
    instantiates, the start-up routine (if any) returns without error,
    and no required export is absent. *)
Definition ready (g : Guest) (w : World g) : Prop :=
  wasi g = None /\
  instantiation g = None /\
  (exported g ExportInitialize = true ->
   exists rs i, invoke g ExportInitialize [] (inst w) = (Results rs, i)) /\
  first_absent g = None.

(** Export [f] never returns an empty list of results. *)
Definition returns_value (g : Guest) (f : string) : Prop :=
  forall args i i', invoke g f args i <> (Results [], i').

(** No export call takes the memory away from an instance that has one. *)
Definition keeps_memory (g : Guest) : Prop :=
  forall f args i, mem i <> None -> mem (snd (invoke g f args i)) <> None.

(** The messages [Execute] can return as errors. *)
Definition Execute_error (e : error) : Prop :=
  (exists cause, e = "failed to allocate input: " ++ cause) \/
  (exists cause, e = "prost_execute failed: " ++ cause) \/
  (exists cause, e = "prost_get_output_ptr failed: " ++ cause) \/
  e = "failed to read output from memory" \/
  (exists cause, e = "prost_clear_output failed: " ++ cause).

(** WASI was bound and the module instantiated. *)
Definition instantiated (g : Guest) : bool :=
  match wasi g, instantiation g with
  | None, None => true
  | _, _ => false
  end.

(** The run came to an end: it neither waits for the mutex nor died on a
    fatal error. *)
Definition ends_normally {A} (o : Outcome A) : Prop :=
  match o with
  | Returned _ | Panicked _ => True
  | Blocked | Crashed _ => False
  end.

(** Further guests for concrete runs. *)
Definition trapping_malloc : Quirks :=
  {| q_absent := []; q_reactor := true; q_init := Results [];
     q_malloc := Trap "boom"; q_free := Results [];
     q_execute := None; q_ptr := Results [32]; q_len := Results [0];
     q_clear := Results [] |}.

Definition trapping_execute : Quirks :=
  {| q_absent := []; q_reactor := true; q_init := Results [];
     q_malloc := Results [8]; q_free := Results [];
     q_execute := Some (Trap "boom"); q_ptr := Results [32];
     q_len := Results [0]; q_clear := Results [] |}.

Definition trapping_pointer : Quirks :=
  {| q_absent := []; q_reactor := true; q_init := Results [];
     q_malloc := Results [8]; q_free := Results [];
     q_execute := None; q_ptr := Trap "boom"; q_len := Results [0];
     q_clear := Results [] |}.

Definition mute_execute : Quirks :=
  {| q_absent := []; q_reactor := true; q_init := Results [];
     q_malloc := Results [8]; q_free := Results [];
     q_execute := Some (Results []); q_ptr := Results [32];
     q_len := Results [0]; q_clear := Results [] |}.

(** The guest [plain] in a runtime where WASI cannot be bound, and in one
    where the module cannot be instantiated. *)
Definition unbound : Guest :=
  {| G := unit;
     wasi := Some "boom";
     instantiation := None;
     exported := exported (toy plain);
     invoke := toy_invoke plain |}.

Definition uninstantiable : Guest :=
  {| G := unit;
     wasi := None;
     instantiation := Some "boom";
     exported := exported (toy plain);
     invoke := toy_invoke plain |}.

Definition blank : Inst unit :=
  {| mem := Some (repeat x00 64); glob := tt; closed := false |}.

(** * Proofs *)

(** ** Symbolic execution of a run *)

#[local] Arguments String.append : simpl never.
#[local] Arguments uint32 : simpl never.
#[local] Arguments len : simpl never.
#[local] Arguments hasSize : simpl never.
#[local] Arguments bytes_at : simpl never.
#[local] Arguments write_at : simpl never.

Ltac inner_scrutinee t :=
  match t with
  | context [match ?x with _ => _ end] =>
      lazymatch x with
      | context [match _ with _ => _ end] => fail
      | _ => x
      end
  end.

Ltac expose H :=
  unfold Execute, allocBytes, freePtr, first_result, memory_read,
    memory_write, call, perform in H.

Ltac absurd_branch :=
  match goal with
  | E : ?x = ?b, E' : negb ?x = ?b |- _ => rewrite E in E'; discriminate E'
  end.

Ltac split_cases H :=
  repeat (cbn in H;
          match type of H with
          | ?t = _ => let x := inner_scrutinee t in destruct x eqn:?
          end;
          try absurd_branch);
  cbn in H.

Ltac split_run H := expose H; split_cases H.

(** ** Elementary facts *)

Lemma len_nonneg : forall data, 0 <= len data.
Proof. intros; unfold len; lia. Qed.

Lemma len_nonempty : forall data, data <> [] -> (len data =? 0) = false.
Proof.
  intros [|b data] H; [congruence|].
  apply Z.eqb_neq. unfold len. simpl. lia.
Qed.

Lemma uint32_range : forall z, 0 <= uint32 z < 2 ^ 32.
Proof. intros; unfold uint32; apply Z.mod_pos_bound; lia. Qed.

Lemma uint32_small : forall z, 0 <= z < 2 ^ 32 -> uint32 z = z.
Proof. intros; unfold uint32; apply Z.mod_small; assumption. Qed.

Lemma bytes_at_length : forall buf offset byteCount,
  0 <= offset -> 0 <= byteCount ->
  hasSize buf offset byteCount = true ->
  len (bytes_at buf offset byteCount) = byteCount.
Proof.
  intros buf offset byteCount Ho Hc H.
  unfold hasSize in H. apply Z.leb_le in H.
  unfold len, bytes_at.
  rewrite length_firstn, length_skipn. lia.
Qed.

(** A write that is granted can be read back. *)
Lemma bytes_at_write_at : forall buf offset val,
  0 <= offset ->
  hasSize buf offset (len val) = true ->
  bytes_at (write_at buf offset val) offset (len val) = val.
Proof.
  intros buf offset val Ho H.
  unfold hasSize in H. apply Z.leb_le in H.
  unfold bytes_at, write_at, len in *.
  rewrite Nat2Z.id.
  rewrite skipn_app, length_firstn.
  replace (Nat.min (Z.to_nat offset) (List.length buf)) with (Z.to_nat offset)
    by lia.
  rewrite Nat.sub_diag. cbn [skipn].
  rewrite skipn_all2 by (rewrite length_firstn; lia).
  cbn [app]. rewrite firstn_app, Nat.sub_diag. cbn [firstn].
  rewrite app_nil_r. apply firstn_all.
Qed.

Lemma run_bind : forall g A B (p : Prog A) (f : A -> Prog B) (w : World g),
  run (bind p f) w = and_then (run p w) f.
Proof.
  induction p as [a|msg|X o k IH]; intros f w; cbn.
  - destruct (run (f a) w) as [[o' w'] tr']; reflexivity.
  - reflexivity.
  - destruct (handle o w) as [x w1| |msg]; try reflexivity.
    rewrite IH. destruct (run (k x) w1) as [[o1 w2] tr1].
    destruct o1; cbn; try reflexivity.
    destruct (run (f a) w2) as [[o2 w3] tr2]; reflexivity.
Qed.

(** ** Empty input *)

Section EmptyInput.

Variable g : Guest.

(** C4.  With an empty input and the mutex free, [Execute] never calls
    the allocator (nor the deallocator): the first export it calls is
    [prost_execute], with the zero pointer and the zero length, on the
    instance as it found it. *)
Theorem Execute_empty_input_skips_allocator :
  forall (w : World g) o w' tr,
    mu w = false ->
    run (Execute bridge []) w = (o, w', tr) ->
    times_called ExportProstMalloc tr = 0%nat /\
    times_called ExportProstFree tr = 0%nat /\
    hd_error (calls tr)
    = Some (ECall ExportProstExecute [0; 0]
              (fst (invoke g ExportProstExecute [0; 0] (inst w)))).
Proof.
  intros [m i] o w' tr Hmu H. simpl in Hmu. subst m.
  expose H. change (len []) with 0 in H. split_run H.
  all: inversion H; subst; cbn.
  all: repeat split; try reflexivity.
  all: match goal with
       | E : invoke _ ExportProstExecute _ _ = _ |- _ => rewrite E
       end; reflexivity.
Qed.

End EmptyInput.

(** ** Allocation *)

Ltac norm :=
  unfold with_inst, with_mem, shut in *; cbn [inst mu mem glob closed] in *.

Ltac forward :=
  repeat (cbn; unfold with_inst, with_mem; cbn [inst mu mem glob closed];
          match goal with
          | E : ?x = _ |- context [match ?x with _ => _ end] => rewrite E
          | E : ?x = _ |- context [negb ?x] => rewrite E
          end);
  cbn.

Ltac expose_goal :=
  unfold Execute, allocBytes, freePtr, first_result, memory_read,
    memory_write, call, perform.

Section Allocation.

Variable g : Guest.

(** C5.  For a non-empty input, with the mutex free: when the allocator
    answers pointer 0, [Execute] returns the allocation error and its
    whole activity is that one call (the execute export is not reached);
    when the allocator answers a non-zero pointer but the write at that
    pointer is out of bounds, [Execute] calls the deallocator with the
    pointer and the input length and returns the memory-write error. *)
Theorem allocation_failures :
  forall (w : World g) input r0 rs i1,
    mu w = false ->
    input <> [] ->
    invoke g ExportProstMalloc [len input] (inst w)
    = (Results (r0 :: rs), i1) ->
    (uint32 r0 = 0 ->
     run (Execute bridge input) w
     = (Returned ([], Some "failed to allocate input: malloc returned null"),
        unlocked g i1,
        [ELock;
         ECall ExportProstMalloc [len input] (Results (r0 :: rs));
         EUnlock]))
    /\
    (forall buf,
       uint32 r0 <> 0 ->
       mem i1 = Some buf ->
       hasSize buf (uint32 r0) (len input) = false ->
       run (Execute bridge input) w
       = (Returned
            ([], Some "failed to allocate input: failed to write to memory"),
          unlocked g
            (snd (invoke g ExportProstFree [uint32 r0; len input] i1)),
          [ELock;
           ECall ExportProstMalloc [len input] (Results (r0 :: rs));
           EWrite (uint32 r0) input OutOfRange;
           ECall ExportProstFree [uint32 r0; len input]
             (fst (invoke g ExportProstFree [uint32 r0; len input] i1));
           EUnlock])).
Proof.
  intros [m i] input r0 rs i1 Hmu Hne Hmalloc. simpl in Hmu, Hmalloc. subst m.
  pose proof (len_nonempty Hne) as Hlen.
  split.
  - intros Hnull. apply Z.eqb_eq in Hnull.
    expose_goal. forward. reflexivity.
  - intros buf Hptr Hmem Hsize. apply Z.eqb_neq in Hptr.
    expose_goal. forward.
    destruct (invoke g ExportProstFree [uint32 r0; len input] i1)
      as [fr i2] eqn:Hfree.
    cbn. reflexivity.
Qed.

End Allocation.

(** ** The call protocol *)

Section Protocol.

Variable g : Guest.

(** C1.  When [Execute] returns bytes and no error, the allocation step
    succeeded with some input pointer, the execute export returned a
    first result [r0], the output-pointer export returned a first result
    [q0], and the bytes returned are exactly the [uint32 r0] bytes that
    the instance memory held at offset [uint32 q0] right after the
    output-pointer call, before the clear and free calls ran; so their
    number is the output length the execute export declared. *)
Theorem Execute_returns_copy_of_output :
  forall (w : World g) input out w' tr,
    run (Execute bridge input) w = (Returned (out, None), w', tr) ->
    exists inputPtr w1 tr1 r0 rs i2 q0 qs i3 buf,
      run (allocBytes bridge input) (locked w)
      = (Returned (inputPtr, None), w1, tr1) /\
      invoke g ExportProstExecute [inputPtr; len input] (inst w1)
      = (Results (r0 :: rs), i2) /\
      invoke g ExportProstGetOutputPtr [] i2 = (Results (q0 :: qs), i3) /\
      mem i3 = Some buf /\
      out = bytes_at buf (uint32 q0) (uint32 r0) /\
      len out = uint32 r0 /\
      (0 <= r0 < 2 ^ 32 -> len out = r0).
Proof.
  intros [m i] input out w' tr H.
  split_run H; try discriminate H.
  all: inversion H; subst; clear H.
  all: unfold locked; cbn [inst]; expose_goal.
  all: do 10 eexists.
  all: split; [forward; reflexivity|].
  all: cbn [inst].
  all: split; [eassumption|].
  all: split; [eassumption|].
  all: split; [eassumption|].
  all: unfold view; cbn [off cnt].
  all: match goal with
       | E : mem ?i = Some _ |- context [mem ?i] => rewrite E
       end.
  all: match goal with
       | Hs : hasSize ?b ?q ?n = true |- _ =>
           assert (Hlen : len (bytes_at b q n) = n)
             by (apply bytes_at_length; try apply uint32_range; exact Hs)
       end.
  all: split; [reflexivity|].
  all: split; [exact Hlen|].
  all: intros Hr; rewrite Hlen; apply uint32_small; exact Hr.
Qed.

(** C8.  Suppose the mutex is free, the allocation step succeeds, the
    execute export returns without error a first result whose 32-bit
    value is 0, the output-pointer export returns without error, the
    zero-length read at that pointer is in bounds and the clear export
    returns without error.  Then [Execute] returns the empty byte
    sequence with a nil error. *)
Theorem empty_response_is_success :
  forall (w : World g) input inputPtr w1 tr1 r0 rs i2 q0 qs i3 buf cs i4,
    mu w = false ->
    run (allocBytes bridge input) (locked w)
    = (Returned (inputPtr, None), w1, tr1) ->
    invoke g ExportProstExecute [inputPtr; len input] (inst w1)
    = (Results (r0 :: rs), i2) ->
    uint32 r0 = 0 ->
    invoke g ExportProstGetOutputPtr [] i2 = (Results (q0 :: qs), i3) ->
    mem i3 = Some buf ->
    hasSize buf (uint32 q0) 0 = true ->
    invoke g ExportProstClearOutput [] i3 = (Results cs, i4) ->
    exists w' tr,
      run (Execute bridge input) w = (Returned ([], None), w', tr).
Proof.
  intros [m i] input inputPtr w1 tr1 r0 rs i2 q0 qs i3 buf cs i4
    Hmu Halloc Hexec Hzero Hptr Hmem Hsize Hclear.
  simpl in Hmu. subst m. unfold locked in Halloc. cbn [inst] in Halloc.
  split_run Halloc; try discriminate Halloc.
  all: inversion Halloc; subst; clear Halloc; norm.
  all: expose_goal; forward; rewrite Hzero; forward.
  all: unfold view; rewrite Hmem; cbn [off cnt].
  all: change (bytes_at buf (uint32 q0) 0) with (@nil byte).
  all: forward.
  all: try (destruct (invoke g ExportProstFree _ i4) as [fr i5]; cbn).
  all: do 2 eexists; reflexivity.
Qed.

(** C2.  Let the memory the allocator leaves fit the 32-bit address
    space.  Whenever [Execute] returns after the allocator answered a
    non-zero pointer for the input, the trace of the call holds exactly
    one call of the deallocator, and that call has the pointer and the
    byte length of the input as arguments.  This covers every returning
    path: write failure, execute failure, output-pointer failure, read
    failure, clear failure and success. *)
Theorem input_buffer_freed_exactly_once :
  forall (w : World g) input res w' tr r0 rs,
    addressable
      (snd (invoke g ExportProstMalloc [len input] (inst w))) ->
    run (Execute bridge input) w = (Returned res, w', tr) ->
    In (ECall ExportProstMalloc [len input] (Results (r0 :: rs))) tr ->
    uint32 r0 <> 0 ->
    times_called ExportProstFree tr = 1%nat /\
    times_called_with ExportProstFree [uint32 r0; len input] tr = 1%nat.
Proof.
  intros [m i] input res w' tr r0 rs H32 H Hin Hptr.
  split_run H; try discriminate H.
  all: inversion H; subst; clear H.
  all: cbn in Hin; intuition (try discriminate).
  all: repeat match goal with
         | E : ECall _ _ _ = ECall _ _ _ |- _ =>
             inversion E; clear E; subst
         end.
  all: try match goal with
         | Hs : hasSize ?b (uint32 ?z) (len ?d) = true,
           Hi : invoke g ExportProstMalloc _ _ = (_, ?j),
           Hm : mem ?j = Some ?b |- _ =>
             let Hb := fresh "Hb" in
             cbn [inst] in H32; rewrite Hi in H32;
             pose proof (H32 _ Hm) as Hb;
             unfold hasSize in Hs; apply Z.leb_le in Hs;
             pose proof (uint32_range z);
             pose proof (len_nonneg d);
             unfold len in Hb;
             rewrite (uint32_small (z := len d)) by (unfold len in *; lia)
         end.
  all: unfold times_called, times_called_with; cbn;
    rewrite ?Z.eqb_refl; cbn; try (split; reflexivity).
  all: try match goal with
       | E : (uint32 ?z =? 0) = true |- _ =>
           apply Z.eqb_eq in E; contradiction
       end.
Qed.

(** C3, as the code has it.  Only the deallocation is best-effort.
    In every run of [Execute], whatever its outcome is found to be: when
    the read of the output is out of bounds, [Execute] returns the read
    error and the clear export is not called.  Once the output has been
    copied, the outcome depends on the clear export alone: if it fails,
    [Execute] returns the clear error in place of the bytes; if it
    succeeds, [Execute] returns the copied bytes with a nil error,
    whatever the deallocator answers afterwards (it neither fails the
    call nor makes it panic). *)
Theorem cleanup_after_read_and_copy :
  forall (w : World g) input o w' tr,
    run (Execute bridge input) w = (o, w', tr) ->
    (forall a n,
       In (ERead a n OutOfRange) tr ->
       o = Returned ([], Some "failed to read output from memory") /\
       times_called ExportProstClearOutput tr = 0%nat) /\
    (forall s bytes,
       In (ECopy s bytes) tr ->
       (forall cs,
          In (ECall ExportProstClearOutput [] (Results cs)) tr ->
          o = Returned (bytes, None)) /\
       (forall e,
          In (ECall ExportProstClearOutput [] (Trap e)) tr ->
          o = Returned ([], Some ("prost_clear_output failed: " ++ e)))).
Proof.
  intros [m i] input o w' tr H.
  split_run H.
  all: inversion H; subst; clear H.
  all: split; [intros a n Hin | intros s bytes Hin; split; intros x Hin'].
  all: cbn in *; intuition (try discriminate).
  all: repeat match goal with
         | E : ECall _ _ _ = ECall _ _ _ |- _ =>
             inversion E; clear E; subst
         | E : ECopy _ _ = ECopy _ _ |- _ =>
             inversion E; clear E; subst
         end.
  all: try reflexivity; try discriminate.
Qed.

End Protocol.

(** ** Exports a program never calls *)

Lemma times_called_app : forall f tr1 tr2,
  times_called f (tr1 ++ tr2)
  = (times_called f tr1 + times_called f tr2)%nat.
Proof.
  intros; unfold times_called. rewrite filter_app, length_app. reflexivity.
Qed.

Lemma calls_app : forall tr1 tr2,
  calls (tr1 ++ tr2) = (calls tr1 ++ calls tr2)%list.
Proof. intros; unfold calls; apply filter_app. Qed.

Lemma avoids_bind : forall A B f (p : Prog A) (k : A -> Prog B),
  avoids f p -> (forall a, avoids f (k a)) -> avoids f (bind p k).
Proof.
  induction p as [a|msg|X o k' IH]; intros k Hp Hk; cbn in *.
  - apply Hk.
  - exact I.
  - destruct Hp as [Ho Hk']. split; [exact Ho|].
    intros x. apply IH; [apply Hk'|exact Hk].
Qed.

Lemma avoids_defer : forall A f (d : Prog unit) (body : Prog A),
  avoids f d -> avoids f body -> avoids f (defer d body).
Proof.
  induction body as [a|msg|X o k IH]; intros Hd Hb; cbn in *.
  - apply avoids_bind; [exact Hd|intros; exact I].
  - apply avoids_bind; [exact Hd|intros; exact I].
  - destruct Hb as [Ho Hk]. split; [exact Ho|].
    intros x. apply IH; [exact Hd|apply Hk].
Qed.

Ltac avoid_step :=
  match goal with
  | |- avoids _ (bind _ _) => apply avoids_bind
  | |- avoids _ (defer _ _) => apply avoids_defer
  | |- avoids _ (match ?x with _ => _ end) => destruct x
  | |- forall _, _ => intro
  | |- _ /\ _ => split
  | |- avoids _ _ => progress cbn [avoids]
  | |- True => exact I
  | |- String.eqb _ _ = false => assumption || reflexivity
  end.

(** [Execute] on the constructed handle calls five exports only. *)
Lemma Execute_avoids : forall f input,
  String.eqb ExportProstMalloc f = false ->
  String.eqb ExportProstFree f = false ->
  String.eqb ExportProstExecute f = false ->
  String.eqb ExportProstGetOutputPtr f = false ->
  String.eqb ExportProstClearOutput f = false ->
  avoids f (Execute bridge input).
Proof.
  intros f input Hm Hf He Hp Hc.
  unfold Execute, allocBytes, freePtr, first_result, memory_read,
    memory_write, call, perform, bridge.
  cbn [malloc free prostExecute prostGetOutputPtr prostClearOutput].
  repeat avoid_step.
Qed.

Lemma avoids_not_called : forall g A f (p : Prog A) (w : World g),
  avoids f p -> times_called f (snd (run p w)) = 0%nat.
Proof.
  induction p as [a|msg|X o k IH]; intros w Hp; cbn in *; try reflexivity.
  destruct Hp as [Ho Hk].
  destruct (handle o w) as [x w1| |msg] eqn:Hh; try reflexivity.
  specialize (IH x w1 (Hk x)).
  destruct (run (k x) w1) as [[o1 w2] tr1]. cbn in *.
  unfold times_called in *. cbn.
  destruct o; cbn; try exact IH.
  rewrite String.eqb_sym, Ho. exact IH.
Qed.

Lemma handle_override : forall g f body X (o : Op X) (w : World g),
  match o with
  | FnCall f' _ => String.eqb f' f = false
  | _ => True
  end ->
  handle o (recast f body w)
  = match handle o w with
    | Next x w' => Next x (recast f body w')
    | Wait => Wait
    | Crash msg => Crash msg
    end.
Proof.
  intros g f body X o [m i] Ho.
  destruct o; cbn in *; try reflexivity.
  - destruct m; reflexivity.
  - destruct m; reflexivity.
  - rewrite Ho. destruct (invoke g f0 args i); reflexivity.
  - destruct (mem i); [destruct (hasSize _ _ _)|]; reflexivity.
  - destruct (mem i); [destruct (hasSize _ _ _)|]; reflexivity.
Qed.

Lemma avoids_override : forall g A f body (p : Prog A) (w : World g),
  avoids f p ->
  run p (recast f body w)
  = let '(o, w', tr) := run p w in (o, recast f body w', tr).
Proof.
  induction p as [a|msg|X o k IH]; intros w Hp; cbn in *; try reflexivity.
  destruct Hp as [Ho Hk].
  rewrite (@handle_override g f body X o w Ho).
  destruct (handle o w) as [x w1| |msg]; try reflexivity.
  rewrite (IH x w1 (Hk x)).
  destruct (run (k x) w1) as [[o1 w2] tr1]. reflexivity.
Qed.

(** C10.  [Execute] never calls [prost_get_output_len]: no run of it has
    such a call in its trace, and giving that export any other behaviour
    leaves the outcome, the final instance and the trace of every run
    unchanged. *)
Theorem Execute_ignores_output_length_accessor :
  forall g (w : World g) input,
    times_called ExportProstGetOutputLen (snd (run (Execute bridge input) w))
    = 0%nat /\
    forall body,
      run (Execute bridge input) (recast ExportProstGetOutputLen body w)
      = let '(o, w', tr) := run (Execute bridge input) w in
        (o, recast ExportProstGetOutputLen body w', tr).
Proof.
  intros g w input.
  assert (Ha : avoids ExportProstGetOutputLen (Execute bridge input))
    by (apply Execute_avoids; reflexivity).
  split.
  - apply avoids_not_called. exact Ha.
  - intros body. apply avoids_override. exact Ha.
Qed.

(** ** Construction *)

Ltac expose_new :=
  unfold NewProtocGenProstWithModule, perform.

Ltac lookups g :=
  destruct (exported g ExportProstMalloc) eqn:?;
  destruct (exported g ExportProstFree) eqn:?;
  destruct (exported g ExportProstExecute) eqn:?;
  destruct (exported g ExportProstGetOutputPtr) eqn:?;
  destruct (exported g ExportProstGetOutputLen) eqn:?;
  destruct (exported g ExportProstClearOutput) eqn:?.

Ltac find_close :=
  cbn; repeat (first [left; reflexivity | right]).

Section Construction.

Variable g : Guest.

(** The only handle the constructor hands out is [bridge]. *)
Lemma New_returns_bridge : forall (w : World g) p e w' tr,
  run NewProtocGenProstWithModule w = (Returned (Some p, e), w', tr) ->
  p = bridge /\ e = None.
Proof.
  intros [m i] p e w' tr H.
  unfold NewProtocGenProstWithModule, perform in H.
  split_cases H; try discriminate H.
  all: inversion H; split; reflexivity.
Qed.

Lemma New_missing : forall (w : World g) missing,
  wasi g = None ->
  instantiation g = None ->
  (exported g ExportInitialize = true ->
   exists rs i, invoke g ExportInitialize [] (inst w) = (Results rs, i)) ->
  first_absent g = Some missing ->
  exists w' tr,
    run NewProtocGenProstWithModule w
    = (Returned (None, Some ("missing export: " ++ missing)), w', tr) /\
    closed (inst w') = true /\
    In EClose tr.
Proof.
  intros [m i] missing Hwasi Hinst Hinit Hfirst.
  unfold first_absent, required_exports in Hfirst. cbn [find] in Hfirst.
  cbn [inst] in Hinit.
  destruct (exported g ExportInitialize) eqn:Hreactor;
    [destruct (Hinit eq_refl) as (rs & i' & Hcall)|]; clear Hinit.
  all: lookups g; cbn [negb] in Hfirst; try discriminate Hfirst.
  all: inversion Hfirst; subst missing; clear Hfirst.
  all: expose_new; forward.
  all: do 2 eexists; split; [reflexivity|]; split; [reflexivity|find_close].
Qed.

(** C6.  Suppose WASI binding and instantiation succeed and the start-up
    routine, if the module has one, returns without error.  If some
    required export is absent, the constructor returns a nil handle and
    the error "missing export: " followed by the name of the first
    absent export in checking order (the absent one, when it is the only
    one), after closing the instance. *)
Theorem missing_export_is_fatal :
  forall (w : World g) name,
    wasi g = None ->
    instantiation g = None ->
    (exported g ExportInitialize = true ->
     exists rs i, invoke g ExportInitialize [] (inst w) = (Results rs, i)) ->
    In name required_exports ->
    exported g name = false ->
    exists missing w' tr,
      first_absent g = Some missing /\
      In missing required_exports /\
      exported g missing = false /\
      ((forall n, In n required_exports -> exported g n = false -> n = name)
       -> missing = name) /\
      run NewProtocGenProstWithModule w
      = (Returned (None, Some ("missing export: " ++ missing)), w', tr) /\
      closed (inst w') = true /\
      In EClose tr.
Proof.
  intros w name Hwasi Hinst Hinit Hin Habsent.
  destruct (first_absent g) as [missing|] eqn:Hfirst.
  - unfold first_absent in Hfirst.
    destruct (find_some _ _ Hfirst) as [Hmem Hneg].
    apply negb_true_iff in Hneg.
    destruct (@New_missing w missing Hwasi Hinst Hinit) as (w' & tr & Hrun & Hc & Hcl).
    { exact Hfirst. }
    exists missing, w', tr. repeat split; auto.
  - unfold first_absent in Hfirst.
    pose proof (find_none _ _ Hfirst name Hin) as Hn.
    cbn in Hn. rewrite Habsent in Hn. discriminate Hn.
Qed.

Lemma New_calls_initialize : forall (w : World g) o w' tr,
  wasi g = None ->
  instantiation g = None ->
  exported g ExportInitialize = true ->
  run NewProtocGenProstWithModule w = (o, w', tr) ->
  calls tr
  = [ECall ExportInitialize [] (fst (invoke g ExportInitialize [] (inst w)))]
  /\ times_called ExportInitialize tr = 1%nat.
Proof.
  intros [m i] o w' tr Hwasi Hinst Hreactor H.
  unfold NewProtocGenProstWithModule, perform in H.
  cbn in H. rewrite Hwasi in H. cbn in H. rewrite Hinst in H.
  cbn in H. rewrite Hreactor in H.
  split_cases H.
  all: inversion H; subst; clear H; cbn [inst].
  all: match goal with
       | E : invoke g ExportInitialize _ _ = _ |- _ => rewrite E
       end.
  all: split; reflexivity.
Qed.

Lemma execute_all_avoids : forall f inputs,
  (forall input, avoids f (Execute bridge input)) ->
  avoids f (execute_all bridge inputs).
Proof.
  intros f inputs Hall.
  induction inputs as [|input rest IH]; cbn [execute_all].
  - exact I.
  - apply avoids_bind; [apply Hall|]. intros r.
    apply avoids_bind; [exact IH|]. intros rs. exact I.
Qed.

(** C7.  Suppose WASI binding and instantiation succeed and the module
    exports [_initialize].  Then in every run of a client that
    constructs the instance and then makes any sequence of [Execute]
    calls on it, [_initialize] is called exactly once and that call is
    the first export call of the whole run.  And if that call fails, the
    constructor closes the instance and returns a nil handle with the
    error "_initialize failed: ...", having called nothing else. *)
Theorem initialize_once_before_any_export :
  forall (w : World g),
    wasi g = None ->
    instantiation g = None ->
    exported g ExportInitialize = true ->
    (forall inputs o w' tr,
       run (session inputs) w = (o, w', tr) ->
       times_called ExportInitialize tr = 1%nat /\
       hd_error (calls tr)
       = Some (ECall ExportInitialize []
                 (fst (invoke g ExportInitialize [] (inst w))))) /\
    (forall e i,
       invoke g ExportInitialize [] (inst w) = (Trap e, i) ->
       run NewProtocGenProstWithModule w
       = (Returned (None, Some ("_initialize failed: " ++ e)),
          {| mu := mu w; inst := shut g i |},
          [EWasi None; EInstantiate None;
           ELookup ExportInitialize (Some ExportInitialize);
           ECall ExportInitialize [] (Trap e);
           EClose])).
Proof.
  intros w Hwasi Hinst Hreactor. split.
  - intros inputs o w' tr H.
    unfold session in H. rewrite run_bind in H.
    destruct (run NewProtocGenProstWithModule w) as [[o1 w1] tr1] eqn:HN.
    destruct (@New_calls_initialize w o1 w1 tr1 Hwasi Hinst Hreactor HN)
      as [Hc Ht].
    assert (Hrest : forall A (q : Prog A) o2 w2 tr2,
               avoids ExportInitialize q ->
               run q w1 = (o2, w2, tr2) ->
               times_called ExportInitialize (tr1 ++ tr2) = 1%nat /\
               hd_error (calls (tr1 ++ tr2))
               = Some (ECall ExportInitialize []
                         (fst (invoke g ExportInitialize [] (inst w))))).
    { intros A q o2 w2 tr2 Hq Hrun.
      pose proof (@avoids_not_called g A ExportInitialize q w1 Hq) as Hz.
      rewrite Hrun in Hz. cbn [snd] in Hz.
      rewrite times_called_app, Ht, Hz, calls_app, Hc.
      split; reflexivity. }
    unfold and_then in H.
    destruct o1 as [[[p|] e]| | |]; cbn beta iota in H.
    + destruct (New_returns_bridge _ HN) as [-> ->].
      destruct (run _ w1) as [[o2 w2] tr2] eqn:Hq in H.
      injection H as Ho Hw Htr. subst o w' tr.
      refine (Hrest _ _ _ _ _ _ Hq).
      apply avoids_bind; [|intros; exact I].
      apply execute_all_avoids.
      intros input; apply Execute_avoids; reflexivity.
    + cbn in H. injection H as Ho Hw Htr. subst o w' tr.
      apply (Hrest _ (Ret tt) (Returned tt) w1 []); [exact I|reflexivity].
    + injection H as Ho Hw Htr. subst o w' tr.
      rewrite Hc. split; [exact Ht|reflexivity].
    + injection H as Ho Hw Htr. subst o w' tr.
      rewrite Hc. split; [exact Ht|reflexivity].
    + injection H as Ho Hw Htr. subst o w' tr.
      rewrite Hc. split; [exact Ht|reflexivity].
  - intros e i Hcall. destruct w as [m i0]. cbn [inst mu] in *.
    expose_new. forward. reflexivity.
Qed.

End Construction.

(** ** The lock discipline *)

Lemma lock_free_bind : forall A B (p : Prog A) (k : A -> Prog B),
  lock_free p -> (forall a, lock_free (k a)) -> lock_free (bind p k).
Proof.
  induction p as [a|msg|X o k' IH]; intros k Hp Hk; cbn in *.
  - apply Hk.
  - exact I.
  - destruct (kind o); try contradiction.
    intros x. apply IH; [apply Hp|exact Hk].
Qed.

Lemma lock_free_defer : forall A (d : Prog unit) (body : Prog A),
  lock_free d -> lock_free body -> lock_free (defer d body).
Proof.
  induction body as [a|msg|X o k IH]; intros Hd Hb; cbn in *.
  - apply lock_free_bind; [exact Hd|intros; exact I].
  - apply lock_free_bind; [exact Hd|intros; exact I].
  - destruct (kind o); try contradiction.
    intros x. apply IH; [exact Hd|apply Hb].
Qed.

Lemma defer_unlock_inside : forall A (body : Prog A),
  lock_free body -> inside (defer (perform MuUnlock) body).
Proof.
  induction body as [a|msg|X o k IH]; intros Hb; cbn in *.
  - intros x; exact I.
  - intros x; exact I.
  - destruct (kind o); try contradiction.
    intros x. apply IH. apply Hb.
Qed.

Ltac lock_free_step :=
  match goal with
  | |- lock_free (bind _ _) => apply lock_free_bind
  | |- lock_free (defer _ _) => apply lock_free_defer
  | |- lock_free (match ?x with _ => _ end) => destruct x
  | |- lock_free (let '(_, _) := ?x in _) => destruct x
  | |- forall _, _ => intro
  | |- lock_free _ => progress cbn
  | |- True => exact I
  end.

(** Whatever the handle and the input, [Execute] takes the mutex and
    then stays inside until it has released it. *)
Lemma Execute_outside : forall p input, outside (Execute p input).
Proof.
  intros p input. unfold Execute. cbn. intros x.
  apply defer_unlock_inside.
  unfold allocBytes, freePtr, first_result, memory_read, memory_write,
    call, perform.
  repeat lock_free_step.
Qed.

Lemma instance_event : forall X (o : Op X) (x : X),
  kind o = KInstance -> is_mutex_event (event_of o x) = false.
Proof. intros X o x H; destruct o; cbn in *; congruence. Qed.

Lemma instance_keeps_mutex : forall g X (o : Op X) (w w' : World g) x,
  kind o = KInstance -> handle o w = Next x w' -> mu w' = mu w.
Proof.
  intros g X o [m i] w' x Hk Hh.
  destruct o; cbn in *; try discriminate Hk.
  - destruct (invoke g f args i). inversion Hh; reflexivity.
  - destruct (mem i); [destruct (hasSize _ _ _)|]; inversion Hh; reflexivity.
  - destruct (mem i); [destruct (hasSize _ _ _)|]; inversion Hh; reflexivity.
  - inversion Hh; reflexivity.
  - inversion Hh; reflexivity.
  - inversion Hh; reflexivity.
  - inversion Hh; reflexivity.
  - inversion Hh; reflexivity.
Qed.

Lemma instance_never_stuck : forall g X (o : Op X) (w : World g),
  kind o = KInstance -> exists x w', handle o w = Next x w'.
Proof.
  intros g X o [m i] Hk.
  destruct o; cbn in *; try discriminate Hk; eauto.
  - destruct (invoke g f args i); eauto.
  - destruct (mem i); [destruct (hasSize _ _ _)|]; eauto.
  - destruct (mem i); [destruct (hasSize _ _ _)|]; eauto.
Qed.

(** A thread that is inside, run alone with the mutex held, performs
    instance operations only and ends by releasing the mutex. *)
Lemma inside_run : forall g A (q : Prog A) (w : World g) o w' tr,
  inside q ->
  mu w = true ->
  run q w = (o, w', tr) ->
  exists body,
    tr = (body ++ [EUnlock])%list /\ mutex_free body = true /\ mu w' = false.
Proof.
  induction q as [a|msg|X op k IH]; intros w o w' tr Hq Hmu H;
    cbn in Hq; try contradiction.
  destruct (kind op) eqn:Hk; try contradiction.
  - destruct op; try discriminate Hk.
    destruct w as [m i]. cbn in Hmu. subst m. cbn in H.
    specialize (Hq tt). destruct (k tt); cbn in Hq; try contradiction.
    + cbn in H. inversion H; subst. exists []. repeat split.
    + cbn in H. inversion H; subst. exists []. repeat split.
  - cbn in H.
    destruct (@instance_never_stuck g X op w Hk) as (x & w1 & Hh).
    rewrite Hh in H.
    destruct (run (k x) w1) as [[o1 w2] tr1] eqn:Hrun.
    inversion H; subst; clear H.
    pose proof (@instance_keeps_mutex g X op w w1 x Hk Hh) as Hmu1.
    destruct (IH x w1 o w' tr1 (Hq x)) as (body & -> & Hfree & Hfin);
      [congruence|exact Hrun|].
    exists (event_of op x :: body). repeat split; try assumption.
    unfold mutex_free in *. cbn. rewrite (@instance_event X op x Hk). exact Hfree.
Qed.

Lemma finished_outside : forall A (p : Prog A), finished p -> outside p.
Proof.
  intros A [a|msg|X o k] H; unfold finished, outside in *;
    [exact I|exact I|contradiction].
Qed.

Lemma nth_error_set_nth : forall T (l : list T) i x j p,
  nth_error (set_nth i x l) j = Some p ->
  (j = i /\ p = x) \/ (j <> i /\ nth_error l j = Some p).
Proof.
  induction l as [|y l IH]; intros i x j p H.
  - destruct i, j; cbn in H; discriminate H.
  - destruct i as [|i], j as [|j]; cbn in H.
    + inversion H. left; split; reflexivity.
    + right; split; [discriminate|exact H].
    + right; split; [discriminate|exact H].
    + destruct (IH i x j p H) as [[-> ->]|[Hne Hnth]].
      * left; split; reflexivity.
      * right; split; [congruence|exact Hnth].
Qed.

Section Exclusion.

Variable g : Guest.
Variable A : Type.

(** One step of one thread keeps the invariant, and is accepted by the
    check of exclusive use. *)
Lemma pstep_invariant :
  forall (c c' : World g * list (Prog A)) i e holder,
    lock_invariant holder c ->
    pstep c (i, e) c' ->
    exists holder',
      lock_invariant holder' c' /\
      forall tr, exclusive holder ((i, e) :: tr) = exclusive holder' tr.
Proof.
  intros c c' i e holder Hinv Hstep.
  inversion Hstep as [w ths i' X o k x w' Hnth Hh]; subst; clear Hstep.
  destruct holder as [h|]; cbn [lock_invariant fst snd] in Hinv;
    destruct Hinv as [Hmu Hths]; pose proof (Hths _ _ Hnth) as Hme.
  - destruct (Nat.eqb i h) eqn:Hih.
    + apply Nat.eqb_eq in Hih. subst h. cbn in Hme.
      destruct (kind o) eqn:Hk; try contradiction.
      * (* the holder releases the mutex *)
        destruct o; try discriminate Hk.
        destruct w as [m j]. cbn in Hmu. subst m. cbn in Hh.
        inversion Hh; subst; clear Hh.
        exists None. split.
        -- cbn [lock_invariant fst snd]. split; [reflexivity|].
           intros j' p Hp.
           destruct (nth_error_set_nth _ _ _ _ Hp) as [[-> ->]|[Hne Hold]].
           ++ apply finished_outside. apply Hme.
           ++ pose proof (Hths _ _ Hold) as Hother.
              apply Nat.eqb_neq in Hne. rewrite Hne in Hother. exact Hother.
        -- intros tr. cbn. rewrite Nat.eqb_refl. reflexivity.
      * (* the holder works on the instance *)
        exists (Some i). split.
        -- cbn [lock_invariant fst snd]. split.
           ++ rewrite (@instance_keeps_mutex g X o w w' x Hk Hh). exact Hmu.
           ++ intros j' p Hp.
              destruct (nth_error_set_nth _ _ _ _ Hp)
                as [[-> ->]|[Hne Hold]].
              ** rewrite Nat.eqb_refl. apply Hme.
              ** exact (Hths _ _ Hold).
        -- intros tr. pose proof (@instance_event X o x Hk) as Hev.
           destruct (event_of o x); cbn in Hev; try discriminate Hev;
             cbn; rewrite Nat.eqb_refl; reflexivity.
    + (* another thread can only be waiting for the mutex *)
      cbn in Hme. destruct (kind o) eqn:Hk; try contradiction.
      destruct o; try discriminate Hk.
      cbn in Hh. rewrite Hmu in Hh. discriminate Hh.
  - cbn in Hme. destruct (kind o) eqn:Hk; try contradiction.
    destruct o; try discriminate Hk.
    destruct w as [m j]. cbn in Hmu. subst m. cbn in Hh.
    inversion Hh; subst; clear Hh.
    exists (Some i). split.
    + cbn [lock_invariant fst snd]. split; [reflexivity|].
      intros j' p Hp.
      destruct (nth_error_set_nth _ _ _ _ Hp) as [[-> ->]|[Hne Hold]].
      * rewrite Nat.eqb_refl. apply Hme.
      * apply Nat.eqb_neq in Hne. rewrite Hne. exact (Hths _ _ Hold).
    + intros tr. reflexivity.
Qed.

Lemma pexec_exclusive :
  forall (c c' : World g * list (Prog A)) tr,
    pexec c tr c' ->
    forall holder, lock_invariant holder c -> exclusive holder tr = true.
Proof.
  induction 1 as [c|c [i e] c1 tr c2 Hstep Hexec IH]; intros holder Hinv.
  - reflexivity.
  - destruct (@pstep_invariant c c1 i e holder Hinv Hstep)
      as (holder' & Hinv' & Heq).
    rewrite Heq. apply IH. exact Hinv'.
Qed.

Lemma sched_pexec : forall picks (c : World g * list (Prog A)),
  pexec c (fst (sched picks c)) (snd (sched picks c)).
Proof.
  induction picks as [|i rest IH]; intros c; cbn.
  - constructor.
  - unfold sched_step.
    destruct (nth_error (snd c) i) as [[a|msg|X o k]|] eqn:Hnth;
      try apply IH.
    destruct (handle o (fst c)) as [x w'| |msg] eqn:Hh; try apply IH.
    specialize (IH (w', set_nth i (k x) (snd c))).
    destruct (sched rest (w', set_nth i (k x) (snd c))) as [tr c''].
    cbn in *. econstructor; [|exact IH].
    destruct c as [w ths]. cbn in *. constructor; assumption.
Qed.

End Exclusion.

(** The check of exclusive use is not vacuous: an operation by a thread
    that does not hold the mutex is rejected. *)
Example exclusive_rejects_intruder :
  exclusive None
    [(0%nat, ELock);
     (1%nat, ECall ExportProstExecute [0; 0] (Results [0]));
     (0%nat, EUnlock)] = false.
Proof. reflexivity. Qed.

(** C9.  Every [Execute] call, run with the mutex free, takes the mutex
    as its first operation, releases it as its last, and touches the
    instance only in between.  And however the operations of any number
    of concurrent [Execute] calls on one instance are interleaved, each
    operation is made by the one thread that holds the mutex: a call's
    sequence, from taking the mutex to releasing it, is never interleaved
    with an operation of another call. *)
Theorem concurrent_calls_do_not_interleave :
  forall g (w : World g) p,
    mu w = false ->
    (forall input o w' tr,
       run (Execute p input) w = (o, w', tr) ->
       exists body,
         tr = (ELock :: body ++ [EUnlock])%list /\
         mutex_free body = true /\
         mu w' = false) /\
    (forall inputs tr c',
       pexec (w, map (Execute p) inputs) tr c' ->
       exclusive None tr = true).
Proof.
  intros g w p Hmu. split.
  - intros input o w' tr H.
    pose proof (Execute_outside p input) as Hout.
    unfold Execute in H, Hout. cbn in H, Hout.
    destruct w as [m i]. cbn in Hmu. subst m. cbn in H.
    destruct (run _ _) as [[o1 w1] tr1] eqn:Hrun in H.
    inversion H; subst; clear H.
    destruct (@inside_run g _ _ (Build_World g true i) o w' tr1
                (Hout tt) eq_refl Hrun)
      as (body & -> & Hf & Hm).
    exists body. repeat split; assumption.
  - intros inputs tr c' Hexec.
    apply (pexec_exclusive Hexec).
    cbn [lock_invariant fst snd]. split; [exact Hmu|].
    intros i q Hq. apply nth_error_In in Hq. apply in_map_iff in Hq.
    destruct Hq as (input & <- & _). apply Execute_outside.
Qed.

(** * Concrete runs *)

(** The bytes returned are those present when the output was read: the
    guest zeroes its memory on [prost_clear_output], and the result still
    holds the reversed input. *)
Example copy_outlives_clear :
  exists w' tr,
    run (Execute bridge abc) (fresh plain) = (Returned (cba, None), w', tr) /\
    view (mem (inst w')) {| off := 32; cnt := 3 |} = [x00; x00; x00].
Proof. do 2 eexists. split; vm_compute; reflexivity. Qed.

Lemma Execute_returns_copy_of_output_witness :
  exists w' tr,
    run (Execute bridge abc) (fresh plain) = (Returned (cba, None), w', tr) /\
    exists q0 buf, cba = bytes_at buf (uint32 q0) (uint32 3) /\ len cba = 3.
Proof.
  do 2 eexists. split; [vm_compute; reflexivity|].
  destruct (@Execute_returns_copy_of_output (toy plain) (fresh plain) abc cba
              _ _ eq_refl)
    as (inputPtr & w1 & tr1 & r0 & rs & i2 & q0 & qs & i3 & buf
        & Halloc & Hexec & Hptr & Hmem & Hout & Hlen & Hsmall).
  vm_compute in Halloc. inversion Halloc; subst; clear Halloc.
  vm_compute in Hexec. inversion Hexec; subst; clear Hexec.
  exists q0, buf. split; [exact Hout|reflexivity].
Defined.

Lemma input_buffer_freed_exactly_once_witness :
  exists w' tr,
    run (Execute bridge abc) (fresh plain) = (Returned (cba, None), w', tr) /\
    In (ECall ExportProstMalloc [3] (Results [8])) tr /\
    times_called ExportProstFree tr = 1%nat /\
    times_called_with ExportProstFree [8; 3] tr = 1%nat.
Proof.
  do 2 eexists. split; [vm_compute; reflexivity|].
  split; [right; left; reflexivity|].
  eapply (@input_buffer_freed_exactly_once (toy plain) (fresh plain) abc
            (cba, None) _ _ 8 []).
  - intros buf H. vm_compute in H. inversion H; subst.
    vm_compute. discriminate.
  - reflexivity.
  - right; left; reflexivity.
  - vm_compute. discriminate.
Defined.

(** C3, counterexample.  The clear step is not best-effort.  With an
    output pointer outside the memory the read is rejected and [Execute]
    returns the read error without ever calling [prost_clear_output];
    with a failing [prost_clear_output] the bytes have been copied out,
    and [Execute] returns the clear error instead of them. *)
Lemma clear_output_is_not_best_effort :
  (exists w' tr,
     run (Execute bridge abc) (fresh stray_output)
     = (Returned ([], Some "failed to read output from memory"), w', tr) /\
     In (ERead 100 3 OutOfRange) tr /\
     times_called ExportProstClearOutput tr = 0%nat) /\
  (exists w' tr,
     run (Execute bridge abc) (fresh failing_clear)
     = (Returned ([], Some "prost_clear_output failed: boom"), w', tr) /\
     In (ECopy {| off := 32; cnt := 3 |} cba) tr /\
     In (ECall ExportProstClearOutput [] (Trap "boom")) tr).
Proof.
  split; do 2 eexists.
  - split; [vm_compute; reflexivity|]. split; [|reflexivity].
    do 5 right; left; reflexivity.
  - split; [vm_compute; reflexivity|]. split.
    + do 6 right; left; reflexivity.
    + do 7 right; left; reflexivity.
Qed.

Lemma cleanup_after_read_and_copy_witness :
  exists o w' tr,
    run (Execute bridge abc) (fresh failing_free) = (o, w', tr) /\
    In (ECall ExportProstFree [8; 3] (Trap "boom")) tr /\
    In (ECopy {| off := 32; cnt := 3 |} cba) tr /\
    In (ECall ExportProstClearOutput [] (Results [])) tr /\
    o = Returned (cba, None).
Proof.
  assert (H : exists o w' tr,
             run (Execute bridge abc) (fresh failing_free) = (o, w', tr) /\
             In (ECall ExportProstFree [8; 3] (Trap "boom")) tr /\
             In (ECopy {| off := 32; cnt := 3 |} cba) tr /\
             In (ECall ExportProstClearOutput [] (Results [])) tr).
  { do 3 eexists. split; [vm_compute; reflexivity|].
    split; [do 8 right; left; reflexivity|].
    split; [do 6 right; left; reflexivity|].
    do 7 right; left; reflexivity. }
  destruct H as (o & w' & tr & Hrun & Hfree & Hcopy & Hclear).
  exists o, w', tr. repeat split; try assumption.
  destruct (@cleanup_after_read_and_copy (toy failing_free)
              (fresh failing_free) abc o w' tr Hrun)
    as [_ Hafter].
  destruct (Hafter _ _ Hcopy) as [Hok _].
  exact (Hok [] Hclear).
Defined.

Lemma Execute_empty_input_skips_allocator_witness :
  exists o w' tr,
    mu (fresh plain) = false /\
    run (Execute bridge []) (fresh plain) = (o, w', tr) /\
    times_called ExportProstMalloc tr = 0%nat /\
    times_called ExportProstFree tr = 0%nat /\
    hd_error (calls tr) = Some (ECall ExportProstExecute [0; 0] (Results [0])).
Proof.
  do 3 eexists. split; [reflexivity|]. split; [vm_compute; reflexivity|].
  exact (@Execute_empty_input_skips_allocator (toy plain) (fresh plain)
           _ _ _ eq_refl eq_refl).
Defined.

Lemma allocation_failures_witness :
  (exists w' tr,
     run (Execute bridge abc) (fresh null_malloc)
     = (Returned ([], Some "failed to allocate input: malloc returned null"),
        w', tr) /\
     times_called ExportProstExecute tr = 0%nat) /\
  (exists w' tr,
     run (Execute bridge abc) (fresh stray_malloc)
     = (Returned
          ([], Some "failed to allocate input: failed to write to memory"),
        w', tr) /\
     times_called_with ExportProstFree [62; 3] tr = 1%nat).
Proof.
  split.
  - destruct (@allocation_failures (toy null_malloc) (fresh null_malloc) abc
                0 [] (inst (fresh null_malloc)) eq_refl) as [Hnull _].
    + discriminate.
    + reflexivity.
    + do 2 eexists. split; [exact (Hnull eq_refl)|reflexivity].
  - destruct (@allocation_failures (toy stray_malloc) (fresh stray_malloc) abc
                62 [] (inst (fresh stray_malloc)) eq_refl) as [_ Hstray].
    + discriminate.
    + reflexivity.
    + do 2 eexists. split.
      * apply (Hstray (repeat x00 64)); [vm_compute; discriminate| |];
          reflexivity.
      * reflexivity.
Defined.

Lemma empty_response_is_success_witness :
  exists w' tr,
    run (Execute bridge abc) (fresh silent) = (Returned ([], None), w', tr).
Proof.
  eapply (@empty_response_is_success (toy silent) (fresh silent) abc).
  - reflexivity.
  - vm_compute. reflexivity.
  - vm_compute. reflexivity.
  - reflexivity.
  - vm_compute. reflexivity.
  - vm_compute. reflexivity.
  - vm_compute. reflexivity.
  - vm_compute. reflexivity.
Defined.

Lemma missing_export_is_fatal_witness :
  exists w' tr,
    run NewProtocGenProstWithModule (fresh no_length_accessor)
    = (Returned (None, Some "missing export: prost_get_output_len"), w', tr) /\
    closed (inst w') = true /\
    In EClose tr.
Proof.
  destruct (@missing_export_is_fatal (toy no_length_accessor)
              (fresh no_length_accessor) ExportProstGetOutputLen)
    as (missing & w' & tr & Hfirst & _ & _ & _ & Hrun & Hclosed & Hclose).
  - reflexivity.
  - reflexivity.
  - intros _. do 2 eexists. reflexivity.
  - do 4 right; left; reflexivity.
  - reflexivity.
  - vm_compute in Hfirst. inversion Hfirst; subst missing.
    exists w', tr. split; [exact Hrun|]. split; assumption.
Defined.

Lemma initialize_once_before_any_export_witness :
  (exists o w' tr,
     run (session [abc; []; abc]) (fresh plain) = (o, w', tr) /\
     times_called ExportInitialize tr = 1%nat /\
     hd_error (calls tr) = Some (ECall ExportInitialize [] (Results []))) /\
  (exists w' tr,
     run NewProtocGenProstWithModule (fresh failing_start)
     = (Returned (None, Some "_initialize failed: boom"), w', tr) /\
     closed (inst w') = true).
Proof.
  split.
  - destruct (@initialize_once_before_any_export (toy plain) (fresh plain)
                eq_refl eq_refl eq_refl) as [Honce _].
    assert (Hrun : exists o w' tr,
               run (session [abc; []; abc]) (fresh plain) = (o, w', tr))
      by (do 3 eexists; vm_compute; reflexivity).
    destruct Hrun as (o & w' & tr & Hrun).
    exists o, w', tr. split; [exact Hrun|].
    exact (Honce _ _ _ _ Hrun).
  - destruct (@initialize_once_before_any_export (toy failing_start)
                (fresh failing_start) eq_refl eq_refl eq_refl)
      as [_ Hfatal].
    do 2 eexists. split.
    + exact (Hfatal "boom" (inst (fresh failing_start)) eq_refl).
    + reflexivity.
Defined.

Lemma concurrent_calls_do_not_interleave_witness :
  mu (fresh plain) = false /\
  exclusive None
    (fst (sched [0; 1; 1; 0; 0; 1; 0; 0; 0; 0; 0; 0; 0; 1; 0; 1; 1; 1]%nat
            (fresh plain, map (Execute bridge) [abc; []]))) = true.
Proof.
  split; [reflexivity|].
  destruct (@concurrent_calls_do_not_interleave (toy plain) (fresh plain)
              bridge eq_refl) as [_ Hexcl].
  exact (Hexcl [abc; []] _ _ (sched_pexec _ _)).
Defined.

(** * Further properties of the bridge *)

Lemma len_zero_nil : forall data, (len data =? 0) = true -> data = [].
Proof.
  intros [|b data] H; [reflexivity|].
  apply Z.eqb_eq in H. unfold len in H. cbn in H. lia.
Qed.

Lemma times_called_cons_other : forall f e tr,
  is_call e = false -> times_called f (e :: tr) = times_called f tr.
Proof. intros f e tr H; destruct e; try discriminate H; reflexivity. Qed.

Lemma times_called_cons_call : forall f f' args r tr,
  times_called f (ECall f' args r :: tr)
  = ((if String.eqb f f' then 1 else 0) + times_called f tr)%nat.
Proof.
  intros; unfold times_called; cbn [filter is_call_to].
  destruct (String.eqb f f'); reflexivity.
Qed.

Lemma buffers_handed_out_app : forall tr1 tr2,
  buffers_handed_out (tr1 ++ tr2)
  = (buffers_handed_out tr1 + buffers_handed_out tr2)%nat.
Proof.
  intros; unfold buffers_handed_out. rewrite filter_app, length_app.
  reflexivity.
Qed.

Ltac count_events :=
  unfold times_called, buffers_handed_out, nonempty;
  cbn [filter is_call_to hands_out_buffer List.length];
  repeat match goal with
         | E : ?x = _ |- context [?x] => rewrite E
         end;
  cbn;
  repeat match goal with
         | |- context [match ?v with _ => _ end] =>
             is_var v; destruct v; cbn
         end.

(** ** The constructor *)

(** X1.  The constructor returns a handle (with a nil error) exactly when
    WASI binds, the module instantiates, the start-up routine, if
    exported, returns without error, and all six required exports are
    present. *)
Theorem New_returns_handle_iff : forall g (w : World g),
  (exists w' tr,
     run NewProtocGenProstWithModule w
     = (Returned (Some bridge, None), w', tr))
  <-> ready w.
Proof.
  intros g [m i]. split.
  - intros (w' & tr & H).
    unfold NewProtocGenProstWithModule, perform in H.
    split_cases H; try discriminate H.
    all: unfold ready, first_absent, required_exports; cbn [find inst].
    all: repeat match goal with
           | E : exported _ _ = _ |- _ => rewrite E; clear E
           end.
    all: repeat split; try assumption; try reflexivity.
    all: intros; try discriminate; eauto.
  - intros (Hwasi & Hinst & Hinit & Hfirst).
    unfold first_absent, required_exports in Hfirst. cbn [find] in Hfirst.
    cbn [inst] in Hinit.
    destruct (exported g ExportInitialize) eqn:Hreactor;
      [destruct (Hinit eq_refl) as (rs & i' & Hcall)|]; clear Hinit.
    all: lookups g; cbn [negb] in Hfirst; try discriminate Hfirst.
    all: expose_new; forward.
    all: do 2 eexists; reflexivity.
Qed.

(** X2.  The constructor always returns (it never panics), and what it
    returns is either the handle with a nil error or a nil handle with an
    error.  On success it has not closed the instance.  On failure after
    instantiation it has closed the instance, exactly once and as its
    last operation; on failure before that, it has called no export and
    closed nothing. *)
Theorem New_result_and_teardown : forall g (w : World g),
  exists res w' tr,
    run NewProtocGenProstWithModule w = (Returned res, w', tr) /\
    match res with
    | (Some p, None) => p = bridge /\ times_closed tr = 0%nat
    | (None, Some e) =>
        if instantiated g
        then times_closed tr = 1%nat /\ closed (inst w') = true
             /\ last tr ELock = EClose
        else calls tr = [] /\ times_closed tr = 0%nat
    | _ => False
    end.
Proof.
  intros g [m i].
  destruct (run NewProtocGenProstWithModule (Build_World g m i))
    as [[o w'] tr] eqn:H.
  unfold NewProtocGenProstWithModule, perform in H.
  unfold instantiated.
  split_cases H.
  all: inversion H; subst; clear H.
  all: do 3 eexists; split; [reflexivity|].
  all: cbn; repeat split; reflexivity.
Qed.

(** X3.  When WASI cannot be bound the constructor returns the error
    "failed to instantiate WASI: ..." and does nothing else; when the
    module cannot be instantiated it returns "failed to instantiate
    module: ..." and does nothing else: no export is looked up or called
    and nothing is closed. *)
Theorem New_early_failures : forall g (w : World g) e,
  (wasi g = Some e ->
   run NewProtocGenProstWithModule w
   = (Returned (None, Some ("failed to instantiate WASI: " ++ e)), w,
      [EWasi (Some e)])) /\
  (wasi g = None ->
   instantiation g = Some e ->
   run NewProtocGenProstWithModule w
   = (Returned (None, Some ("failed to instantiate module: " ++ e)), w,
      [EWasi None; EInstantiate (Some e)])).
Proof.
  intros g w e. split.
  - intros Hwasi. expose_new. forward. reflexivity.
  - intros Hwasi Hinst. expose_new. forward. reflexivity.
Qed.

(** X4.  The constructor calls no export other than [_initialize], calls
    that one at most once, never takes the mutex and never reads or
    writes the instance memory itself. *)
Theorem New_calls_only_initialize : forall g (w : World g),
  (forall f, f <> ExportInitialize ->
             times_called f (snd (run NewProtocGenProstWithModule w)) = 0%nat)
  /\
  (times_called ExportInitialize (snd (run NewProtocGenProstWithModule w))
   <= 1)%nat /\
  forallb (fun e => negb (is_memory_event e || is_mutex_event e))
    (snd (run NewProtocGenProstWithModule w)) = true /\
  mu (snd (fst (run NewProtocGenProstWithModule w))) = mu w.
Proof.
  intros g [m i].
  destruct (run NewProtocGenProstWithModule (Build_World g m i))
    as [[o w'] tr] eqn:H.
  unfold NewProtocGenProstWithModule, perform in H.
  split_cases H.
  all: inversion H; subst; clear H; cbn [snd fst mu].
  all: split; [intros f Hf|split; [|split; reflexivity]].
  all: repeat first
         [ rewrite times_called_cons_other by reflexivity
         | rewrite times_called_cons_call ].
  all: try reflexivity; try (cbn; lia).
  all: apply String.eqb_neq in Hf; rewrite Hf; reflexivity.
Qed.

(** ** One call *)

Section OneCall.

Variable g : Guest.

(** X5.  When [Execute] returns an error it returns no bytes with it, and
    the error is one of five: allocation, execute, output pointer, read
    or clear. *)
Theorem Execute_error_shape : forall (w : World g) input bytes e w' tr,
  run (Execute bridge input) w = (Returned (bytes, Some e), w', tr) ->
  bytes = [] /\ Execute_error e.
Proof.
  intros [m i] input bytes e w' tr H.
  split_run H; try discriminate H.
  all: inversion H; subst; clear H.
  all: split; [reflexivity|].
  all: unfold Execute_error; eauto 10.
Qed.

(** X6.  [Execute] calls no export besides the allocator, the
    deallocator, the execute entry, the output-pointer accessor and the
    output-clear entry. *)
Theorem Execute_calls_only_protocol_exports : forall (w : World g) input f,
  ~ In f [ExportProstMalloc; ExportProstFree; ExportProstExecute;
          ExportProstGetOutputPtr; ExportProstClearOutput] ->
  times_called f (snd (run (Execute bridge input) w)) = 0%nat.
Proof.
  intros w input f Hf.
  apply avoids_not_called. apply Execute_avoids.
  all: apply String.eqb_neq; intros E; apply Hf; subst f; cbn; auto 10.
Qed.

(** X7.  When [allocBytes] succeeds on a non-empty input, the pointer it
    returns is a non-zero 32-bit value and the instance memory holds the
    input bytes at that pointer. *)
Theorem allocBytes_round_trip : forall (w : World g) data ptr w' tr,
  data <> [] ->
  run (allocBytes bridge data) w = (Returned (ptr, None), w', tr) ->
  0 < ptr < 2 ^ 32 /\
  exists buf,
    mem (inst w') = Some buf /\
    bytes_at buf ptr (len data) = data.
Proof.
  intros [m i] data ptr w' tr Hne H.
  pose proof (len_nonempty Hne) as Hlen.
  split_run H; try discriminate H; try congruence.
  inversion H; subst; clear H. norm.
  match goal with
  | E : (uint32 ?z =? 0) = false |- _ =>
      apply Z.eqb_neq in E; pose proof (uint32_range z)
  end.
  split; [lia|].
  eexists. split; [reflexivity|].
  apply bytes_at_write_at; [lia|assumption].
Qed.

(** X8.  [Execute] writes to the instance memory at most once, and what
    it writes is the input, at the non-zero pointer the allocator
    returned for it. *)
Theorem Execute_writes_only_the_input : forall (w : World g) input,
  (List.length (filter is_write (snd (run (Execute bridge input) w))) <= 1)%nat
  /\
  forall e,
    In e (snd (run (Execute bridge input) w)) ->
    is_write e = true ->
    exists r0 rs r,
      In (ECall ExportProstMalloc [len input] (Results (r0 :: rs)))
        (snd (run (Execute bridge input) w)) /\
      uint32 r0 <> 0 /\
      e = EWrite (uint32 r0) input r.
Proof.
  intros [m i] input.
  destruct (run (Execute bridge input) (Build_World g m i))
    as [[o w'] tr] eqn:H.
  split_run H.
  all: inversion H; subst; clear H; cbn [snd].
  all: split; [cbn; lia|].
  all: intros e Hin Hw; cbn in Hin.
  all: repeat match goal with
         | Hin : _ \/ _ |- _ => destruct Hin as [<-|Hin]; try discriminate Hw
         | Hin : False |- _ => contradiction
         end.
  all: match goal with
       | E : (uint32 ?z =? 0) = false |- _ => apply Z.eqb_neq in E
       end.
  all: do 3 eexists; split; [|split; [eassumption|reflexivity]].
  all: cbn; auto.
Qed.

(** X9.  A successful call is exactly this sequence.  For an empty input:
    lock, execute with (0, 0), output pointer, read, copy, clear, unlock.
    For a non-empty input: lock, allocate, write the input, execute with
    the pointer and the length, output pointer, read, copy, clear, free
    the input buffer, unlock. *)
Theorem Execute_success_sequence : forall (w : World g) input out w' tr,
  run (Execute bridge input) w = (Returned (out, None), w', tr) ->
  exists r0 rs q0 qs cs,
    let read :=
      [ECall ExportProstGetOutputPtr [] (Results (q0 :: qs));
       ERead (uint32 q0) (uint32 r0)
         (Granted {| off := uint32 q0; cnt := uint32 r0 |});
       ECopy {| off := uint32 q0; cnt := uint32 r0 |} out;
       ECall ExportProstClearOutput [] (Results cs)] in
    (input = [] /\
     tr = (ELock
             :: ECall ExportProstExecute [0; 0] (Results (r0 :: rs))
             :: read ++ [EUnlock])%list)
    \/
    (input <> [] /\
     exists p0 ps fr,
       uint32 p0 <> 0 /\
       tr = (ELock
               :: ECall ExportProstMalloc [len input] (Results (p0 :: ps))
               :: EWrite (uint32 p0) input (Granted tt)
               :: ECall ExportProstExecute [uint32 p0; len input]
                    (Results (r0 :: rs))
               :: read
               ++ [ECall ExportProstFree [uint32 p0; uint32 (len input)] fr;
                   EUnlock])%list).
Proof.
  intros [m i] input out w' tr H.
  split_run H; try discriminate H.
  all: inversion H; subst; clear H.
  all: unfold view; cbn [off cnt].
  all: repeat match goal with
         | E : mem ?i = Some _ |- context [mem ?i] => rewrite E
         end.
  - match goal with
    | E : (len _ =? 0) = true |- _ => apply len_zero_nil in E; subst input
    end.
    change (len []) with 0.
    do 5 eexists. left. split; reflexivity.
  - do 5 eexists. right. split.
    + intros ->. discriminate.
    + do 3 eexists. split; [|reflexivity].
      apply Z.eqb_neq. assumption.
Qed.

(** X10.  When the allocator call itself fails, [Execute] returns
    "failed to allocate input: " followed by that failure, and has done
    nothing but that call under the mutex: no write, no execute, no
    free. *)
Theorem allocator_trap : forall (w : World g) input e i1,
  mu w = false ->
  input <> [] ->
  invoke g ExportProstMalloc [len input] (inst w) = (Trap e, i1) ->
  run (Execute bridge input) w
  = (Returned ([], Some ("failed to allocate input: " ++ e)),
     unlocked g i1,
     [ELock; ECall ExportProstMalloc [len input] (Trap e); EUnlock]).
Proof.
  intros [m i] input e i1 Hmu Hne Hmalloc. simpl in Hmu, Hmalloc. subst m.
  pose proof (len_nonempty Hne) as Hlen.
  expose_goal. forward. reflexivity.
Qed.

(** X11.  After a successful allocation: when the execute call fails,
    [Execute] returns "prost_execute failed: ..." without asking for the
    output pointer or clearing; when the output-pointer call fails, it
    returns "prost_get_output_ptr failed: ..." without clearing; in both
    cases it has not read the instance memory. *)
Theorem export_traps : forall (w : World g) input inputPtr w1 tr1,
  mu w = false ->
  run (allocBytes bridge input) (locked w)
  = (Returned (inputPtr, None), w1, tr1) ->
  (forall e i2,
     invoke g ExportProstExecute [inputPtr; len input] (inst w1)
     = (Trap e, i2) ->
     exists w' tr,
       run (Execute bridge input) w
       = (Returned ([], Some ("prost_execute failed: " ++ e)), w', tr) /\
       times_called ExportProstGetOutputPtr tr = 0%nat /\
       times_called ExportProstClearOutput tr = 0%nat /\
       filter is_memory_event tr = filter is_memory_event tr1) /\
  (forall r0 rs i2 e i3,
     invoke g ExportProstExecute [inputPtr; len input] (inst w1)
     = (Results (r0 :: rs), i2) ->
     invoke g ExportProstGetOutputPtr [] i2 = (Trap e, i3) ->
     exists w' tr,
       run (Execute bridge input) w
       = (Returned ([], Some ("prost_get_output_ptr failed: " ++ e)), w', tr)
       /\
       times_called ExportProstClearOutput tr = 0%nat /\
       filter is_memory_event tr = filter is_memory_event tr1).
Proof.
  intros [m i] input inputPtr w1 tr1 Hmu Halloc.
  simpl in Hmu. subst m. unfold locked in Halloc. cbn [inst] in Halloc.
  split_run Halloc; try discriminate Halloc.
  all: inversion Halloc; subst; clear Halloc; norm.
  all: split; [intros e i2 Hexec|intros r0 rs i2 e i3 Hexec Hptr].
  all: expose_goal; forward.
  all: try match goal with
         | |- context [invoke g ExportProstFree ?a ?j] =>
             destruct (invoke g ExportProstFree a j) as [fr i5]; cbn
         end.
  all: do 2 eexists; split; [reflexivity|repeat split; reflexivity].
Qed.

Lemma Execute_balance : forall (w : World g) input res w' tr,
  run (Execute bridge input) w = (Returned res, w', tr) ->
  times_called ExportProstFree tr = buffers_handed_out tr /\
  times_called ExportProstMalloc tr = (if nonempty input then 1 else 0)%nat.
Proof.
  intros [m i] input res w' tr H.
  split_run H; try discriminate H.
  all: inversion H; subst; clear H.
  all: count_events.
  all: split; reflexivity.
Qed.

(** X12.  Over any sequence of calls that all return, there is one
    result per input, the allocator has been called once per non-empty
    input, and the deallocator has been called exactly as many times as
    the allocator handed out a non-zero pointer. *)
Theorem repeated_calls_balance : forall inputs (w : World g) rs w' tr,
  run (execute_all bridge inputs) w = (Returned rs, w', tr) ->
  List.length rs = List.length inputs /\
  times_called ExportProstFree tr = buffers_handed_out tr /\
  times_called ExportProstMalloc tr = List.length (filter nonempty inputs).
Proof.
  induction inputs as [|input rest IH]; intros w rs w' tr H.
  - cbn in H. inversion H; subst. repeat split.
  - cbn [execute_all] in H. rewrite run_bind in H.
    destruct (run (Execute bridge input) w) as [[o1 w1] tr1] eqn:H1.
    unfold and_then in H.
    destruct o1 as [r| | |]; try discriminate H.
    rewrite run_bind in H.
    destruct (run (execute_all bridge rest) w1) as [[o2 w2] tr2] eqn:H2.
    unfold and_then in H.
    destruct o2 as [rs2| | |]; try discriminate H.
    cbn in H. inversion H; subst; clear H.
    destruct (@Execute_balance _ _ _ _ _ H1) as [Hf Hm].
    destruct (IH _ _ _ _ H2) as (Hl & Hf2 & Hm2).
    rewrite !app_nil_r.
    rewrite !times_called_app, buffers_handed_out_app, Hf, Hf2, Hm, Hm2.
    cbn [List.length filter]. rewrite Hl.
    destruct (nonempty input); repeat split; reflexivity.
Qed.

(** X14.  When [Execute] panics, the panic is an index out of range or a
    nil dereference, and the mutex has been released.  If the execute
    export had been called, the deallocator has still been called for
    every buffer handed out; if the panic came before that, during
    allocation, the deallocator has not been called at all. *)
Theorem panic_cleanup : forall (w : World g) input msg w' tr,
  run (Execute bridge input) w = (Panicked msg, w', tr) ->
  (msg = index_out_of_range \/ msg = nil_dereference) /\
  mu w' = false /\
  (times_called ExportProstExecute tr = 1%nat ->
   times_called ExportProstFree tr = buffers_handed_out tr) /\
  (times_called ExportProstExecute tr = 0%nat ->
   times_called ExportProstFree tr = 0%nat).
Proof.
  intros [m i] input msg w' tr H.
  split_run H; try discriminate H.
  all: inversion H; subst; clear H.
  all: split; [auto|split; [reflexivity|]].
  all: count_events.
  all: split; intros; try reflexivity; try discriminate.
Qed.

(** X15.  On a guest that has a memory and keeps it, and whose allocator,
    execute entry and output-pointer accessor never return an empty
    result list, [Execute] with the mutex free always returns: it does
    not panic. *)
Theorem Execute_never_panics : forall (w : World g) input,
  returns_value g ExportProstMalloc ->
  returns_value g ExportProstExecute ->
  returns_value g ExportProstGetOutputPtr ->
  keeps_memory g ->
  mem (inst w) <> None ->
  mu w = false ->
  exists res w' tr, run (Execute bridge input) w = (Returned res, w', tr).
Proof.
  intros [m i] input Hm He Hp Hk Hmem Hmu. cbn in Hmem, Hmu. subst m.
  destruct (run (Execute bridge input) (Build_World g false i))
    as [[o w'] tr] eqn:H.
  split_run H.
  all: inversion H; subst; clear H.
  all: try (do 3 eexists; reflexivity).
  all: exfalso.
  all: repeat match goal with
         | E : invoke g ExportProstMalloc _ _ = (Results [], _) |- _ =>
             exact (Hm _ _ _ E)
         | E : invoke g ExportProstExecute _ _ = (Results [], _) |- _ =>
             exact (He _ _ _ E)
         | E : invoke g ExportProstGetOutputPtr _ _ = (Results [], _) |- _ =>
             exact (Hp _ _ _ E)
         | E : invoke g ?f ?a ?j = (_, ?j') |- _ =>
             let K := fresh "K" in
             pose proof (Hk f a j) as K; rewrite E in K; cbn [snd] in K;
             revert E
         end.
  all: intros.
  all: unfold with_mem in *; cbn [mem] in *.
  all: repeat match goal with
         | K : ?a -> ?b |- _ =>
             let F := fresh "F" in
             assert (F : a) by (first [assumption | discriminate]);
             specialize (K F); clear F
         end.
  all: congruence.
Qed.

End OneCall.

(** ** Sequences of calls and closing *)

Lemma inside_ends : forall g A (q : Prog A) (w : World g),
  inside q -> mu w = true -> ends_normally (fst (fst (run q w))).
Proof.
  induction q as [a|msg|X op k IH]; intros w Hq Hmu;
    cbn in Hq; try contradiction.
  destruct (kind op) eqn:Hk; try contradiction.
  - destruct op; try discriminate Hk.
    destruct w as [m i]. cbn in Hmu. subst m. cbn.
    specialize (Hq tt). destruct (k tt); cbn in Hq; try contradiction;
      exact I.
  - cbn.
    destruct (@instance_never_stuck g X op w Hk) as (x & w1 & Hh).
    rewrite Hh.
    pose proof (@instance_keeps_mutex g X op w w1 x Hk Hh) as Hmu1.
    specialize (IH x w1 (Hq x)).
    destruct (run (k x) w1) as [[o1 w2] tr1]. cbn in *.
    apply IH. congruence.
Qed.

Lemma outside_run : forall g A (q : Prog A) (w : World g),
  outside q -> mu w = false ->
  ends_normally (fst (fst (run q w))) /\ mu (snd (fst (run q w))) = false.
Proof.
  intros g A [a|msg|X op k] [m i] Hq Hmu; cbn in Hmu; subst m; cbn in *.
  - split; [exact I|reflexivity].
  - split; [exact I|reflexivity].
  - destruct (kind op) eqn:Hk; try contradiction.
    destruct op; try discriminate Hk. cbn.
    pose proof (@inside_ends g A (k tt) (Build_World g true i) (Hq tt) eq_refl)
      as Hend.
    destruct (run (k tt) (Build_World g true i)) as [[o w'] tr] eqn:Hrun.
    cbn in *. split; [exact Hend|].
    destruct (@inside_run g A (k tt) (Build_World g true i) o w' tr
                (Hq tt) eq_refl Hrun) as (body & _ & _ & Hfree).
    exact Hfree.
Qed.

(** X13.  Starting with the mutex free, a sequence of [Execute] calls on
    one handle never waits for the mutex and never hits the fatal unlock
    error; it ends by returning or by a panic, and in both cases leaves
    the mutex free for the next caller. *)
Theorem repeated_calls_never_wait :
  forall g p inputs (w : World g),
    mu w = false ->
    ends_normally (fst (fst (run (execute_all p inputs) w))) /\
    mu (snd (fst (run (execute_all p inputs) w))) = false.
Proof.
  intros g p. induction inputs as [|input rest IH]; intros w Hmu.
  - cbn. split; [exact I|exact Hmu].
  - cbn [execute_all]. rewrite run_bind.
    destruct (@outside_run g _ (Execute p input) w
                (Execute_outside p input) Hmu) as [Hend Hfree].
    destruct (run (Execute p input) w) as [[o1 w1] tr1]. cbn in Hend, Hfree.
    unfold and_then.
    destruct o1 as [r| | |]; try contradiction; cbn; [|split; auto].
    rewrite run_bind.
    destruct (IH w1 Hfree) as [Hend2 Hfree2].
    destruct (run (execute_all p rest) w1) as [[o2 w2] tr2].
    cbn in Hend2, Hfree2. unfold and_then.
    destruct o2 as [rs| | |]; try contradiction; cbn; split; auto.
Qed.

Lemma Close_outside : forall module, outside (Close module).
Proof.
  intros module. unfold Close. cbn. intros x.
  apply defer_unlock_inside.
  destruct module as [answer|]; cbn; auto.
Qed.

Lemma inside_detached : forall A (q : Prog A),
  inside q -> inside (bind q (fun _ => Ret tt)).
Proof.
  induction q as [a|msg|X o k IH]; intros Hq; cbn in *; try contradiction.
  destruct (kind o); try contradiction.
  - intros x. specialize (Hq x). destruct (k x); cbn in *; auto.
  - intros x. apply IH. apply Hq.
Qed.

Lemma detached_outside : forall A (q : Prog A),
  outside q -> outside (detached q).
Proof.
  intros A [a|msg|X o k] Hq; unfold detached; cbn in *; auto.
  destruct (kind o); try contradiction.
  intros x. apply inside_detached. apply Hq.
Qed.

(** X16.  [Close] is serialised with the calls.  While the mutex is held
    it waits and closes nothing.  With the mutex free it closes the
    instance between taking and releasing the mutex and returns what the
    module's close reported (with a nil module it only takes and releases
    the mutex).  And in every interleaving of concurrent [Execute] and
    [Close] calls on one handle, each operation, the closing included, is
    made by the thread holding the mutex. *)
Theorem Close_is_serialised :
  forall g (w : World g) p,
    (forall module,
       mu w = true -> run (Close module) w = (Blocked, w, [])) /\
    (forall answer,
       mu w = false ->
       run (Close (Some answer)) w
       = (Returned answer, unlocked g (shut g (inst w)),
          [ELock; EClose; EUnlock])) /\
    (mu w = false ->
     run (Close None) w
     = (Returned None, unlocked g (inst w), [ELock; EUnlock])) /\
    (forall pool tr c',
       mu w = false ->
       Forall (fun t =>
                 (exists input, t = detached (Execute p input)) \/
                 (exists module, t = detached (Close module))) pool ->
       pexec (w, pool) tr c' ->
       exclusive None tr = true).
Proof.
  intros g [m i] p. cbn [mu inst]. repeat split.
  - intros module ->. reflexivity.
  - intros answer ->. reflexivity.
  - intros ->. reflexivity.
  - intros pool tr c' -> Hpool Hexec.
    apply (pexec_exclusive Hexec).
    cbn [lock_invariant fst snd mu]. split; [reflexivity|].
    intros j q Hq. apply nth_error_In in Hq.
    rewrite Forall_forall in Hpool.
    destruct (Hpool q Hq) as [[input ->]|[module ->]];
      apply detached_outside;
      [apply Execute_outside|apply Close_outside].
Qed.

(** * Concrete runs for the further properties *)

Lemma New_early_failures_witness :
  run NewProtocGenProstWithModule (Build_World unbound false blank)
  = (Returned (None, Some "failed to instantiate WASI: boom"),
     Build_World unbound false blank,
     [EWasi (Some "boom")]) /\
  run NewProtocGenProstWithModule (Build_World uninstantiable false blank)
  = (Returned (None, Some "failed to instantiate module: boom"),
     Build_World uninstantiable false blank,
     [EWasi None; EInstantiate (Some "boom")]).
Proof.
  split.
  - exact (proj1 (@New_early_failures unbound
                    (Build_World unbound false blank) "boom") eq_refl).
  - exact (proj2 (@New_early_failures uninstantiable
                    (Build_World uninstantiable false blank) "boom")
             eq_refl eq_refl).
Defined.

Lemma Execute_error_shape_witness :
  exists w' tr,
    run (Execute bridge abc) (fresh failing_clear)
    = (Returned ([], Some "prost_clear_output failed: boom"), w', tr) /\
    Execute_error "prost_clear_output failed: boom".
Proof.
  assert (H : exists w' tr,
             run (Execute bridge abc) (fresh failing_clear)
             = (Returned ([], Some "prost_clear_output failed: boom"), w', tr))
    by (do 2 eexists; vm_compute; reflexivity).
  destruct H as (w' & tr & H). exists w', tr. split; [exact H|].
  exact (proj2 (@Execute_error_shape _ _ _ _ _ _ _ H)).
Defined.

Lemma Execute_calls_only_protocol_exports_witness :
  times_called ExportInitialize (snd (run (Execute bridge abc) (fresh plain)))
  = 0%nat.
Proof.
  apply Execute_calls_only_protocol_exports.
  cbn. intuition discriminate.
Defined.

Lemma allocBytes_round_trip_witness :
  exists w' tr,
    abc <> [] /\
    run (allocBytes bridge abc) (fresh plain) = (Returned (8, None), w', tr) /\
    0 < 8 < 2 ^ 32 /\
    exists buf, mem (inst w') = Some buf /\ bytes_at buf 8 (len abc) = abc.
Proof.
  assert (H : exists w' tr,
             run (allocBytes bridge abc) (fresh plain)
             = (Returned (8, None), w', tr))
    by (do 2 eexists; vm_compute; reflexivity).
  destruct H as (w' & tr & H). exists w', tr.
  assert (Hne : abc <> []) by discriminate.
  split; [exact Hne|]. split; [exact H|].
  exact (@allocBytes_round_trip _ _ _ _ _ _ Hne H).
Defined.

Lemma Execute_success_sequence_witness :
  exists w' tr,
    run (Execute bridge abc) (fresh plain) = (Returned (cba, None), w', tr) /\
    exists p0 ps fr r0 rs q0 qs cs,
      uint32 p0 <> 0 /\
      tr = [ELock;
            ECall ExportProstMalloc [len abc] (Results (p0 :: ps));
            EWrite (uint32 p0) abc (Granted tt);
            ECall ExportProstExecute [uint32 p0; len abc] (Results (r0 :: rs));
            ECall ExportProstGetOutputPtr [] (Results (q0 :: qs));
            ERead (uint32 q0) (uint32 r0)
              (Granted {| off := uint32 q0; cnt := uint32 r0 |});
            ECopy {| off := uint32 q0; cnt := uint32 r0 |} cba;
            ECall ExportProstClearOutput [] (Results cs);
            ECall ExportProstFree [uint32 p0; uint32 (len abc)] fr;
            EUnlock].
Proof.
  assert (H : exists w' tr,
             run (Execute bridge abc) (fresh plain)
             = (Returned (cba, None), w', tr))
    by (do 2 eexists; vm_compute; reflexivity).
  destruct H as (w' & tr & H). exists w', tr. split; [exact H|].
  destruct (@Execute_success_sequence _ _ _ _ _ _ H)
    as (r0 & rs & q0 & qs & cs & [[Hnil _]|(_ & p0 & ps & fr & Hp & Htr)]).
  - discriminate Hnil.
  - exists p0, ps, fr, r0, rs, q0, qs, cs. split; [exact Hp|exact Htr].
Defined.

Lemma allocator_trap_witness :
  run (Execute bridge abc) (fresh trapping_malloc)
  = (Returned ([], Some "failed to allocate input: boom"),
     fresh trapping_malloc,
     [ELock; ECall ExportProstMalloc [3] (Trap "boom"); EUnlock]).
Proof.
  refine (@allocator_trap (toy trapping_malloc) (fresh trapping_malloc) abc
            "boom" (inst (fresh trapping_malloc)) eq_refl _ eq_refl).
  discriminate.
Defined.

Lemma export_traps_witness :
  (exists w' tr,
     run (Execute bridge abc) (fresh trapping_execute)
     = (Returned ([], Some "prost_execute failed: boom"), w', tr) /\
     times_called ExportProstGetOutputPtr tr = 0%nat) /\
  (exists w' tr,
     run (Execute bridge abc) (fresh trapping_pointer)
     = (Returned ([], Some "prost_get_output_ptr failed: boom"), w', tr) /\
     times_called ExportProstClearOutput tr = 0%nat).
Proof.
  split.
  - assert (Ha : exists w1 tr1,
               run (allocBytes bridge abc) (locked (fresh trapping_execute))
               = (Returned (8, None), w1, tr1))
      by (do 2 eexists; vm_compute; reflexivity).
    destruct Ha as (w1 & tr1 & Ha).
    destruct (@export_traps (toy trapping_execute) (fresh trapping_execute)
                abc 8 w1 tr1 eq_refl Ha) as [Hexec _].
    destruct (Hexec "boom" (inst w1)) as (w' & tr & Hrun & Hp & _).
    + vm_compute in Ha. inversion Ha; subst. reflexivity.
    + exists w', tr. split; assumption.
  - assert (Ha : exists w1 tr1,
               run (allocBytes bridge abc) (locked (fresh trapping_pointer))
               = (Returned (8, None), w1, tr1))
      by (do 2 eexists; vm_compute; reflexivity).
    destruct Ha as (w1 & tr1 & Ha).
    destruct (@export_traps (toy trapping_pointer) (fresh trapping_pointer)
                abc 8 w1 tr1 eq_refl Ha) as [_ Hptr].
    vm_compute in Ha. inversion Ha; subst; clear Ha.
    edestruct Hptr as (w' & tr & Hrun & Hc & _).
    + vm_compute. reflexivity.
    + vm_compute. reflexivity.
    + exists w', tr. split; assumption.
Defined.

Lemma repeated_calls_balance_witness :
  exists rs w' tr,
    run (execute_all bridge [abc; []; abc]) (fresh plain)
    = (Returned rs, w', tr) /\
    List.length rs = 3%nat /\
    times_called ExportProstFree tr = buffers_handed_out tr /\
    times_called ExportProstMalloc tr = 2%nat.
Proof.
  assert (H : exists rs w' tr,
             run (execute_all bridge [abc; []; abc]) (fresh plain)
             = (Returned rs, w', tr))
    by (do 3 eexists; vm_compute; reflexivity).
  destruct H as (rs & w' & tr & H). exists rs, w', tr. split; [exact H|].
  exact (@repeated_calls_balance _ _ _ _ _ _ H).
Defined.

Lemma repeated_calls_never_wait_witness :
  mu (fresh plain) = false /\
  ends_normally
    (fst (fst (run (execute_all bridge [abc; []; abc]) (fresh plain)))) /\
  mu (snd (fst (run (execute_all bridge [abc; []; abc]) (fresh plain))))
  = false.
Proof.
  split; [reflexivity|].
  exact (@repeated_calls_never_wait (toy plain) bridge [abc; []; abc]
           (fresh plain) eq_refl).
Defined.

Lemma panic_cleanup_witness :
  exists w' tr,
    run (Execute bridge abc) (fresh mute_execute)
    = (Panicked index_out_of_range, w', tr) /\
    mu w' = false /\
    times_called ExportProstExecute tr = 1%nat /\
    times_called ExportProstFree tr = buffers_handed_out tr.
Proof.
  assert (H : exists w' tr,
             run (Execute bridge abc) (fresh mute_execute)
             = (Panicked index_out_of_range, w', tr))
    by (do 2 eexists; vm_compute; reflexivity).
  destruct H as (w' & tr & H). exists w', tr. split; [exact H|].
  destruct (@panic_cleanup _ _ _ _ _ _ H) as (_ & Hmu & Hafter & _).
  split; [exact Hmu|].
  assert (Hone : times_called ExportProstExecute tr = 1%nat).
  { vm_compute in H. inversion H; subst. reflexivity. }
  split; [exact Hone|exact (Hafter Hone)].
Defined.

Lemma toy_returns_value : forall f,
  In f [ExportProstMalloc; ExportProstExecute; ExportProstGetOutputPtr] ->
  returns_value (toy plain) f.
Proof.
  intros f Hf args i i' H.
  cbn in Hf. destruct Hf as [<-|[<-|[<-|[]]]]; cbn in H; try discriminate H.
  unfold toy_execute in H.
  split_cases H; discriminate H.
Qed.

Lemma toy_keeps_memory : keeps_memory (toy plain).
Proof.
  intros f args i Hm. cbn [invoke toy]. unfold toy_invoke.
  repeat match goal with
         | |- context [if String.eqb f ?s then _ else _] =>
             destruct (String.eqb f s)
         end; cbn [snd plain q_init q_malloc q_free q_execute q_ptr q_len
                       q_clear mem]; try assumption.
  - unfold toy_execute.
    repeat match goal with
           | |- context [match ?x with _ => _ end] =>
               lazymatch x with
               | context [match _ with _ => _ end] => fail
               | _ => destruct x eqn:?
               end
           end; cbn [snd mem]; congruence.
  - match goal with
    | |- context [option_map ?h ?x] => destruct x eqn:E
    end; cbn; [discriminate|exfalso; apply Hm; exact E].
Qed.

Lemma Execute_never_panics_witness :
  exists res w' tr,
    run (Execute bridge abc) (fresh plain) = (Returned res, w', tr).
Proof.
  apply (@Execute_never_panics (toy plain) (fresh plain) abc).
  - apply toy_returns_value. cbn. auto.
  - apply toy_returns_value. cbn. auto.
  - apply toy_returns_value. cbn. auto.
  - exact toy_keeps_memory.
  - discriminate.
  - reflexivity.
Defined.

Lemma Close_is_serialised_witness :
  run (Close (Some None)) (locked (fresh plain))
  = (Blocked, locked (fresh plain), []) /\
  closed (inst (snd (fst (run (Close (Some None)) (fresh plain))))) = true /\
  exclusive None
    (fst (sched [0; 1; 0; 0; 1; 0; 0; 0; 0; 0; 0; 0; 1; 1; 1; 1]%nat
            (fresh plain,
             [detached (Execute bridge abc);
              detached (Close (Some None))]))) = true.
Proof.
  destruct (@Close_is_serialised (toy plain) (locked (fresh plain)) bridge)
    as (Hwait & _).
  destruct (@Close_is_serialised (toy plain) (fresh plain) bridge)
    as (_ & Hclose & _ & Hexcl).
  split; [exact (Hwait (Some None) eq_refl)|].
  split; [rewrite (Hclose None eq_refl); reflexivity|].
  refine (Hexcl [detached (Execute bridge abc); detached (Close (Some None))]
            _ _ eq_refl _ (sched_pexec _ _)).
  apply Forall_cons; [left; exists abc; reflexivity|].
  apply Forall_cons; [right; exists (Some None); reflexivity|].
  apply Forall_nil.
Defined.
